(** * Binary-mixture VLE tools: McCabe-Thiele design and flash classification

    A shallow embedding of [Code/McCabe_Thiele_App.py] and
    [Code/MyVLEPlayground.py], and the properties of their computational
    cores.

    Numbers.  The programs compute with IEEE doubles; the embedding computes
    with exact rationals ([Q]), so every statement below is a statement in
    exact arithmetic.  Two kinds of Python floating-point value occur and they
    differ in what a division by zero does, so a value carries its kind:
    a plain Python [float] raises [ZeroDivisionError]; a [numpy.float64]
    (anything that comes out of [fsolve], [interp1d] or [linspace], and
    anything computed from such a value) yields [inf] or [nan] and the program
    goes on. *)

From Stdlib Require Import QArith Qround Qpower Qminmax Lqa Psatz ZArith List Lia Bool.
Import ListNotations.

Open Scope Q_scope.

(** ** Outcomes of a computation *)

Inductive halt : Type :=
| ZeroDivisionError  (* Python exception; propagates until an [except] *)
| OverflowError      (* Python exception: a float power out of range *)
| NonFinite          (* a numpy division by zero: the program continues with
                        inf or nan, which the rationals do not have; the
                        embedding stops here and no [except] sees it *)
| OutOfFuel.         (* the loop budget of the embedding ran out; never
                        produced by the programs themselves *)

Inductive result (A : Type) : Type :=
| Ok (a : A)
| Stop (h : halt).

Arguments Ok {A} a.
Arguments Stop {A} h.

Definition bind {A B : Type} (m : result A) (f : A -> result B) : result B :=
  match m with
  | Ok a => f a
  | Stop h => Stop h
  end.

Declare Scope result_scope.
Delimit Scope result_scope with result.
Notation "x <- m ;; k" := (bind m (fun x => k))
  (at level 61, m at next level, right associativity) : result_scope.
Notation "' p <- m ;; k" := (bind m (fun x => let p := x in k))
  (at level 61, p pattern, m at next level, right associativity) : result_scope.

Definition is_exception (h : halt) : bool :=
  match h with
  | ZeroDivisionError | OverflowError => true
  | NonFinite | OutOfFuel => false
  end.

(** [try: body except: handler].  A bare [except:] catches the Python
    exceptions and nothing else of the embedding's outcomes. *)
Definition try_except {A : Type} (body handler : result A) : result A :=
  match body with
  | Ok a => Ok a
  | Stop h => if is_exception h then handler else Stop h
  end.

(** ** Floating-point values with their kind *)

Inductive fkind : Type := PyFloat | NpFloat.

Definition kjoin (a b : fkind) : fkind :=
  match a, b with
  | PyFloat, PyFloat => PyFloat
  | _, _ => NpFloat
  end.

Record num : Type := mknum { kind : fkind; val : Q }.

Definition py (v : Q) : num := mknum PyFloat v.
Definition np (v : Q) : num := mknum NpFloat v.

(** Arithmetic.  A result is stored in lowest terms ([Qred], which does not
    change the rational: [Qred_correct]) so that long computations can be
    evaluated. *)
Definition nadd (a b : num) : num :=
  mknum (kjoin (kind a) (kind b)) (Qred (val a + val b)).
Definition nsub (a b : num) : num :=
  mknum (kjoin (kind a) (kind b)) (Qred (val a - val b)).
Definition nmul (a b : num) : num :=
  mknum (kjoin (kind a) (kind b)) (Qred (val a * val b)).

(** [a / b]: the one partial operation. *)
Definition ndiv (a b : num) : result num :=
  if Qeq_bool (val b) 0 then
    match kjoin (kind a) (kind b) with
    | PyFloat => Stop ZeroDivisionError
    | NpFloat => Stop NonFinite
    end
  else Ok (mknum (kjoin (kind a) (kind b)) (Qred (val a / val b))).

Definition Qlt_bool (a b : Q) : bool := negb (Qle_bool b a).

Definition nlt (a b : num) : bool := Qlt_bool (val a) (val b).
Definition nle (a b : num) : bool := Qle_bool (val a) (val b).
Definition ngt (a b : num) : bool := Qlt_bool (val b) (val a).
Definition nge (a b : num) : bool := Qle_bool (val b) (val a).
Definition neq (a b : num) : bool := Qeq_bool (val a) (val b).
Definition nne (a b : num) : bool := negb (Qeq_bool (val a) (val b)).

Declare Scope num_scope.
Delimit Scope num_scope with num.
Bind Scope num_scope with num.
Infix "+" := nadd : num_scope.
Infix "-" := nsub : num_scope.
Infix "*" := nmul : num_scope.
Infix "/" := ndiv : num_scope.
Infix "<?" := nlt (at level 70) : num_scope.
Infix "<=?" := nle (at level 70) : num_scope.
Infix ">?" := ngt (at level 70) : num_scope.
Infix ">=?" := nge (at level 70) : num_scope.
Infix "=?" := neq (at level 70) : num_scope.
Infix "!=?" := nne (at level 70) : num_scope.

(** ** [scipy.optimize.fsolve]

    The solver is not part of the repository.  [hybrd f x0] is the estimate
    MINPACK's iteration ends with for the residual function [f] started at
    [x0]; nothing is assumed about it unless a theorem says so. *)

Section Scipy.

Variable hybrd : (num -> result num) -> Q -> Q.

(** [fsolve(func, x0)[0]].  [fsolve] turns [x0] into an array and evaluates
    [func] there before it iterates; a Python exception raised by [func]
    propagates to the caller.  Non-convergence is a warning, not an
    exception.  The result is a [numpy.float64]. *)
Definition fsolve (func : num -> result num) (x0 : num) : result num :=
  match func (np (val x0)) with
  | Ok _ => Ok (np (hybrd func (val x0)))
  | Stop h => if is_exception h then Stop h else Ok (np (hybrd func (val x0)))
  end.

End Scipy.

(** * Part I: the programs *)

(** ** [Code/McCabe_Thiele_App.py] *)

Module McCabeThiele.

Local Open Scope num_scope.
Local Open Scope result_scope.

(** Acetone-ethanol equilibrium from constant relative volatility. *)
Definition equilibrium_curve (x : num) : result num :=
  let alpha := py 2.4 in
  (alpha * x) / (py 1 + (alpha - py 1) * x).

(** Inverse equilibrium relationship. *)
Definition x_from_y_equilibrium (y : num) : result num :=
  let alpha := py 2.4 in
  y / (alpha - y * (alpha - py 1)).

Inductive section_tag : Type := Rectifying | Stripping.

(** One entry of [stages_data]; the fields are the keys of the dict. *)
Record stage_entry : Type := mkentry {
  Stage : Z;
  SectionTag : section_tag;      (* key ['Section'] *)
  x_liquid : num;
  y_vapor : num;
  x_next : num;
  y_next : num
}.

(** The local variables of [calculate_stages]. *)
Record loop_state : Type := mkstate {
  x_current : num;
  y_current : num;
  stage_num : Z;
  stages_rect : Z;
  stages_strip : Z;
  feed_stage : option Z;
  stages_data : list stage_entry
}.

Section Stepping.

Variables x_b x_feed_intersect : num.
Variables slope_rect intercept_rect slope_strip intercept_strip : num.

(** Body of the first [while], up to and including the assignments to
    [x_current] and [y_current]. *)
Definition rect_body (s : loop_state) : result loop_state :=
  let stage_num := (stage_num s + 1)%Z in
  let stages_rect := (stages_rect s + 1)%Z in
  x_new <- x_from_y_equilibrium (y_current s) ;;
  let '(y_new, section, feed_stage, stages_rect, stages_strip) :=
    if x_new >=? x_feed_intersect then
      (slope_rect * x_new + intercept_rect, Rectifying,
       feed_stage s, stages_rect, stages_strip s)
    else
      (slope_strip * x_new + intercept_strip, Stripping,
       Some stage_num, (stages_rect - 1)%Z, (stages_strip s + 1)%Z) in
  Ok {| x_current := x_new;
        y_current := y_new;
        stage_num := stage_num;
        stages_rect := stages_rect;
        stages_strip := stages_strip;
        feed_stage := feed_stage;
        stages_data := stages_data s ++
          [ {| Stage := stage_num; SectionTag := section;
               x_liquid := x_new; y_vapor := y_current s;
               x_next := x_current s; y_next := y_new |} ] |}.

(** Body of the second [while]. *)
Definition strip_body (s : loop_state) : result loop_state :=
  let stage_num := (stage_num s + 1)%Z in
  let stages_strip := (stages_strip s + 1)%Z in
  x_new <- x_from_y_equilibrium (y_current s) ;;
  let y_new := slope_strip * x_new + intercept_strip in
  Ok {| x_current := x_new;
        y_current := y_new;
        stage_num := stage_num;
        stages_rect := stages_rect s;
        stages_strip := stages_strip;
        feed_stage := feed_stage s;
        stages_data := stages_data s ++
          [ {| Stage := stage_num; SectionTag := Stripping;
               x_liquid := x_new; y_vapor := y_current s;
               x_next := x_current s; y_next := y_new |} ] |}.

(** Both loops have the shape
    [while test and stage_num < 50: body; if x_current <= x_b * 1.01: break].
    The loop test is evaluated before the budget of the embedding is looked
    at, so a budget of [n] allows [n] iterations. *)
Fixpoint stepping_loop (test : loop_state -> bool)
    (body : loop_state -> result loop_state)
    (fuel : nat) (s : loop_state) : result loop_state :=
  if test s && (stage_num s <? 50)%Z then
    match fuel with
    | O => Stop OutOfFuel
    | S fuel' =>
        s' <- body s ;;
        if x_current s' <=? x_b * py 1.01 then Ok s'
        else stepping_loop test body fuel' s'
    end
  else Ok s.

(** Rectifying section: [while x_current > x_feed_intersect and ...]. *)
Definition rect_loop : nat -> loop_state -> result loop_state :=
  stepping_loop (fun s => x_current s >? x_feed_intersect) rect_body.

(** Stripping section: [while x_current > x_b * 1.01 and ...]. *)
Definition strip_loop : nat -> loop_state -> result loop_state :=
  stepping_loop (fun s => x_current s >? x_b * py 1.01) strip_body.

(** [if feed_stage is None: feed_stage = stages_rect], between the loops. *)
Definition default_feed_stage (s : loop_state) : loop_state :=
  match feed_stage s with
  | None =>
      {| x_current := x_current s; y_current := y_current s;
         stage_num := stage_num s; stages_rect := stages_rect s;
         stages_strip := stages_strip s;
         feed_stage := Some (stages_rect s);
         stages_data := stages_data s |}
  | Some _ => s
  end.

(** The state of [calculate_stages] when it reaches its [return]. *)
Definition run_stages (fuel : nat) (x_d : num) : result loop_state :=
  let s0 := {| x_current := x_d; y_current := x_d; stage_num := 0;
               stages_rect := 0; stages_strip := 0; feed_stage := None;
               stages_data := [] |} in
  s1 <- rect_loop fuel s0 ;;
  strip_loop fuel (default_feed_stage s1).

End Stepping.

(** [calculate_stages], with the loop budget of the embedding explicit.
    [y_feed_intersect] is a parameter the function never reads. *)
Definition calculate_stages_fuel (fuel : nat)
    (x_d x_b x_feed_intersect y_feed_intersect
     slope_rect intercept_rect slope_strip intercept_strip : num)
  : result (Z * Z * option Z * list stage_entry) :=
  s <- run_stages x_b x_feed_intersect slope_rect intercept_rect
         slope_strip intercept_strip fuel x_d ;;
  Ok (stages_rect s, stages_strip s, feed_stage s, stages_data s).

(** Each loop stops at [stage_num = 50] at the latest, so 50 iterations each
    are enough; this is proved in Part IV. *)
Definition calculate_stages := calculate_stages_fuel 50.

(** The dict returned by [calculate_design]. *)
Record design : Type := mkdesign {
  design_F : num; design_D : num; design_B : num;
  design_x_f : num; design_x_d : num; design_x_b : num;
  design_q : num; design_R : num; design_R_min : num; design_R_factor : num;
  design_slope_rect : num; design_intercept_rect : num;
  design_slope_strip : num; design_intercept_strip : num;
  design_x_feed_intersect : num; design_y_feed_intersect : num;
  design_x_intersect : num; design_y_intersect : num;
  design_stages_rect : Z; design_stages_strip : Z;
  design_total_stages : Z; design_optimal_feed : option Z;
  design_V : num; design_L : num;
  design_stage_data : list stage_entry
}.

(** Overall material balance (the two assignments to [D] and [B]). *)
Definition material_balance (F x_f x_d x_b : num) : result (num * num) :=
  D <- F * (x_f - x_b) / (x_d - x_b) ;;
  let B := F - D in
  Ok (D, B).

(** The expression [q/(q-1) * x - x_f/(q-1)], which [feed_eq_intersection]
    and [find_feed_intersection] both evaluate. *)
Definition feed_line (q x_f x : num) : result num :=
  a <- q / (q - py 1) ;;
  b <- x_f / (q - py 1) ;;
  Ok (a * x - b).

Definition feed_eq_intersection (q x_f x : num) : result num :=
  y_feed <- feed_line q x_f x ;;
  y_eq <- equilibrium_curve x ;;
  Ok (y_feed - y_eq).

Definition find_feed_intersection
    (q x_f slope_rect intercept_rect x : num) : result num :=
  let y_rect := slope_rect * x + intercept_rect in
  y_feed <- feed_line q x_f x ;;
  Ok (y_rect - y_feed).

(** Minimum reflux ratio with its fallback. *)
Definition minimum_reflux (x_d x_intersect y_intersect : num) : result num :=
  R_min <- (x_d - y_intersect) / (y_intersect - x_intersect) ;;
  Ok (if R_min <? py 0 then py 0.5 else R_min).

(** Slope of the stripping line through [(x_b, x_b)] and the feed point. *)
Definition stripping_slope (x_b x_feed_intersect y_feed_intersect : num)
  : result num :=
  if x_feed_intersect !=? x_b then
    (y_feed_intersect - x_b) / (x_feed_intersect - x_b)
  else Ok (py 1.0).

Section Design.

Variable hybrd : (num -> result num) -> Q -> Q.
Let fsolve := fsolve hybrd.

(** First [try]/[except]: the feed line against the equilibrium curve. *)
Definition feed_equilibrium_point (q x_f : num) : result (num * num) :=
  try_except
    (x_intersect <- fsolve (feed_eq_intersection q x_f) x_f ;;
     y_intersect <- equilibrium_curve x_intersect ;;
     Ok (x_intersect, y_intersect))
    (y_intersect <- equilibrium_curve x_f ;;
     Ok (x_f, y_intersect)).

(** Second [try]/[except]: the feed line against the rectifying line. *)
Definition feed_operating_point (q x_f slope_rect intercept_rect : num)
  : result (num * num) :=
  try_except
    (x_feed_intersect <-
       fsolve (find_feed_intersection q x_f slope_rect intercept_rect) x_f ;;
     Ok (x_feed_intersect, slope_rect * x_feed_intersect + intercept_rect))
    (Ok (x_f, slope_rect * x_f + intercept_rect)).

Definition calculate_design (F x_f x_d x_b q R_factor : num)
  : result design :=
  '(D, B) <- material_balance F x_f x_d x_b ;;
  '(x_intersect, y_intersect) <- feed_equilibrium_point q x_f ;;
  R_min <- minimum_reflux x_d x_intersect y_intersect ;;
  let R := R_factor * R_min in
  slope_rect <- R / (R + py 1) ;;
  intercept_rect <- x_d / (R + py 1) ;;
  '(x_feed_intersect, y_feed_intersect) <-
    feed_operating_point q x_f slope_rect intercept_rect ;;
  slope_strip <- stripping_slope x_b x_feed_intersect y_feed_intersect ;;
  let intercept_strip := x_b - slope_strip * x_b in
  '(stages_rect, stages_strip, optimal_feed, stage_data) <-
    calculate_stages x_d x_b x_feed_intersect y_feed_intersect
      slope_rect intercept_rect slope_strip intercept_strip ;;
  let total_stages := (stages_rect + stages_strip)%Z in
  let V := D * (R + py 1) in
  let L := R * D in
  Ok {| design_F := F; design_D := D; design_B := B;
        design_x_f := x_f; design_x_d := x_d; design_x_b := x_b;
        design_q := q; design_R := R; design_R_min := R_min;
        design_R_factor := R_factor;
        design_slope_rect := slope_rect;
        design_intercept_rect := intercept_rect;
        design_slope_strip := slope_strip;
        design_intercept_strip := intercept_strip;
        design_x_feed_intersect := x_feed_intersect;
        design_y_feed_intersect := y_feed_intersect;
        design_x_intersect := x_intersect;
        design_y_intersect := y_intersect;
        design_stages_rect := stages_rect;
        design_stages_strip := stages_strip;
        design_total_stages := total_stages;
        design_optimal_feed := optimal_feed;
        design_V := V; design_L := L;
        design_stage_data := stage_data |}.

End Design.

End McCabeThiele.

(** ** [Code/MyVLEPlayground.py] *)

Module VLEPlayground.

Local Open Scope num_scope.
Local Open Scope result_scope.

Inductive phase_tag : Type := vapor | liquid | two_phase.


(** The dict returned in P-x-y mode. *)
Record pxy_dict : Type := mkpxy {
  pxy_phase : phase_tag;
  pxy_x_liquid : num;
  pxy_y_vapor : num;
  pxy_vapor_fraction : num;
  pxy_P_bubble : num;
  pxy_P_dew : num;
  pxy_T : num;
  pxy_P_point : num;
  pxy_z : num
}.

(** The dict returned in T-x-y mode. *)
Record txy_dict : Type := mktxy {
  txy_phase : phase_tag;
  txy_x_liquid : num;
  txy_y_vapor : num;
  txy_vapor_fraction : num;
  txy_T_bubble : num;
  txy_T_dew : num;
  txy_T_point : num;
  txy_P : num;
  txy_z : num
}.

(** [np.linspace(start, stop, n)]. *)
Definition linspace (start stop : Q) (n : nat) : list num :=
  map (fun i : nat =>
         np (Qred (start + inject_Z (Z.of_nat i)
                           * ((stop - start) / inject_Z (Z.of_nat (n - 1))))))
      (seq 0 n).

Fixpoint argmin_from (l : list Q) (i best : nat) (least : Q) : nat :=
  match l with
  | [] => best
  | v :: l' =>
      if Qlt_bool v least then argmin_from l' (S i) i v
      else argmin_from l' (S i) best least
  end.

(** [np.argmin]: the first index of the least element. *)
Definition argmin (l : list Q) : nat :=
  match l with
  | [] => 0%nat
  | v :: l' => argmin_from l' 1 0 v
  end.

Definition Qabs (a : Q) : Q := if Qlt_bool a 0 then - a else a.

Section Flash.

(** [10 ** e] is transcendental; it is a parameter of the embedding, with
    the [OverflowError] a Python float power can raise. *)
Variable pow10 : num -> result num.

(** The module-level interpolants [tx_interp] and [ty_interp], built at
    import time from [generate_equilibrium_data]; evaluated at a point they
    give a numpy value. *)
Variables tx_interp ty_interp : Q -> Q.

Variable hybrd : (num -> result num) -> Q -> Q.
Let fsolve := fsolve hybrd.

(** Vapor pressure of n-hexane (bar). *)
Definition psat1 (temp : num) : result num :=
  e <- py 1171.53 / (temp + py 224.216) ;;
  pow10 (py 4.00266 - e).

(** Vapor pressure of n-heptane (bar). *)
Definition psat2 (temp : num) : result num :=
  e <- py 1355.126 / (temp + py 209.367) ;;
  pow10 (py 4.04867 - e).

(** Bubble point pressure. *)
Definition px_function (x temp : num) : result num :=
  p1 <- psat1 temp ;;
  p2 <- psat2 temp ;;
  Ok (x * p1 + (py 1 - x) * p2).

(** Dew point pressure. *)
Definition py_function (x temp : num) : result num :=
  p1 <- psat1 temp ;;
  a <- x / p1 ;;
  p2 <- psat2 temp ;;
  b <- (py 1 - x) / p2 ;;
  py 1 / (a + b).

(** The residual functions the two-phase branch hands to [fsolve]. *)
Definition liquid_eq (T P_point x : num) : result num :=
  p <- px_function x T ;; Ok (p - P_point).

Definition vapor_eq (T P_point x : num) : result num :=
  p <- py_function x T ;; Ok (p - P_point).

(** The [pxy] branch of [calculate_phase_equilibrium]. *)
Definition phase_equilibrium_pxy (T P_point z : num) : result pxy_dict :=
  P_bubble <- px_function z T ;;
  P_dew <- py_function z T ;;
  '(phase, x_liquid, y_vapor, vapor_fraction) <-
    (if P_point <? P_dew then
       Ok (vapor, z, z, py 1.0)
     else if P_point >? P_bubble then
       Ok (liquid, z, z, py 0.0)
     else
       x_liquid <- fsolve (liquid_eq T P_point) z ;;
       y_vapor <- fsolve (vapor_eq T P_point) z ;;
       vapor_fraction <- (y_vapor - z) / (y_vapor - x_liquid) ;;
       Ok (two_phase, x_liquid, y_vapor, vapor_fraction)) ;;
  Ok {| pxy_phase := phase; pxy_x_liquid := x_liquid;
        pxy_y_vapor := y_vapor; pxy_vapor_fraction := vapor_fraction;
        pxy_P_bubble := P_bubble; pxy_P_dew := P_dew;
        pxy_T := T; pxy_P_point := P_point; pxy_z := z |}.

(** [x_range[np.argmin(np.abs(np.array(t_range) - T_point))]] with
    [x_range = np.linspace(0, 1, 1000)] and [t_range] the interpolant over
    it. *)
Definition nearest_on_curve (interp : Q -> Q) (T_point : num) : num :=
  let x_range := linspace 0 1 1000 in
  let t_range := map (fun x => interp (val x)) x_range in
  nth (argmin (map (fun t => Qabs (t - val T_point)) t_range)) x_range (np 0).

(** The [txy] branch of [calculate_phase_equilibrium]. *)
Definition phase_equilibrium_txy (P T_point z : num) : result txy_dict :=
  let T_bubble_z := np (tx_interp (val z)) in
  let T_dew_z :=
    if z <? py 1 then np (ty_interp (val z)) else np (tx_interp (val z)) in
  '(phase, x_liquid, y_vapor, vapor_fraction) <-
    (if T_point >? T_dew_z then
       Ok (vapor, z, z, py 1.0)
     else if T_point <? T_bubble_z then
       Ok (liquid, z, z, py 0.0)
     else
       let x_liquid := nearest_on_curve tx_interp T_point in
       let y_vapor := nearest_on_curve ty_interp T_point in
       vapor_fraction <-
         (if y_vapor !=? x_liquid then
            (y_vapor - z) / (y_vapor - x_liquid)
          else Ok (py 0.5)) ;;
       Ok (two_phase, x_liquid, y_vapor, vapor_fraction)) ;;
  Ok {| txy_phase := phase; txy_x_liquid := x_liquid;
        txy_y_vapor := y_vapor; txy_vapor_fraction := vapor_fraction;
        txy_T_bubble := T_bubble_z; txy_T_dew := T_dew_z;
        txy_T_point := T_point; txy_P := P; txy_z := z |}.


End Flash.

End VLEPlayground.

(** * Part II: vocabulary of the statements *)

(** ** Solvers for the examples

    Stand-ins for [hybrd] where an example has to run. *)

(** The value of a residual function at [x], 0 where it has none. *)
Definition residual (f : num -> result num) (x : Q) : Q :=
  match f (np x) with
  | Ok r => val r
  | Stop _ => 0
  end.

(** Newton's iteration with a forward-difference slope of step 1/1000. *)
Fixpoint newton (n : nat) (f : num -> result num) (x : Q) : Q :=
  match n with
  | O => x
  | S n' =>
      let fx := residual f x in
      let slope := (residual f (x + 0.001) - fx) / 0.001 in
      if Qeq_bool slope 0 then x
      else newton n' f (Qred (x - fx / slope))
  end.

Definition newton_solver : (num -> result num) -> Q -> Q := newton 4.

(** A solver that makes no progress: [fsolve] hands back its starting
    point. *)
Definition seed_solver : (num -> result num) -> Q -> Q := fun _ x0 => x0.

(** One step of inverse interpolation by a ratio of two linear functions,
    through the residuals at [x0], [x0 + 1/1000] and [x0 + 2/1000]: it ends
    on the zero of a residual function that is itself such a ratio, a
    straight line included. *)
Definition rational_solver : (num -> result num) -> Q -> Q :=
  fun f x0 =>
    let x1 := x0 + 0.001 in
    let x2 := x0 + 0.002 in
    let f0 := residual f x0 in
    let f1 := residual f x1 in
    let f2 := residual f x2 in
    let n := x1 * (x0 - x2) * f2 * (f0 - f1)
             - x2 * (x0 - x1) * f1 * (f0 - f2) in
    let d := (x0 - x2) * f2 * (f0 - f1) - (x0 - x1) * f1 * (f0 - f2) in
    if Qeq_bool d 0 then x0 else Qred (n / d).

Module McCabeThieleSpec.

Import McCabeThiele.

Local Open Scope num_scope.

(** The counters of [calculate_stages] agree with each other and with the
    list built so far. *)
Definition counters_ok (s : loop_state) : Prop :=
  (0 <= stages_rect s)%Z /\ (0 <= stages_strip s)%Z /\
  (stages_rect s + stages_strip s = stage_num s)%Z /\
  Z.of_nat (length (stages_data s)) = stage_num s /\
  (stage_num s <= 50)%Z.

(** What one iteration started at the point [(x, y)] with [n] entries
    already emitted appends. *)
Definition emitted_by
    (slope_rect intercept_rect slope_strip intercept_strip : num)
    (n : nat) (x y : num) (e : stage_entry) : Prop :=
  Stage e = (Z.of_nat n + 1)%Z /\
  x_from_y_equilibrium y = Ok (x_liquid e) /\
  y_vapor e = y /\
  x_next e = x /\
  y_next e = match SectionTag e with
             | Rectifying => slope_rect * x_liquid e + intercept_rect
             | Stripping => slope_strip * x_liquid e + intercept_strip
             end.

(** [stage_chain ... x0 y0 l x y]: started at [(x0, y0)], the iterations
    emitted the entries [l] one after the other and the current point is now
    [(x, y)]. *)
Inductive stage_chain
    (slope_rect intercept_rect slope_strip intercept_strip : num)
    (x0 y0 : num) : list stage_entry -> num -> num -> Prop :=
| chain_start :
    stage_chain slope_rect intercept_rect slope_strip intercept_strip
      x0 y0 [] x0 y0
| chain_step (l : list stage_entry) (x y : num) (e : stage_entry) :
    stage_chain slope_rect intercept_rect slope_strip intercept_strip
      x0 y0 l x y ->
    emitted_by slope_rect intercept_rect slope_strip intercept_strip
      (length l) x y e ->
    stage_chain slope_rect intercept_rect slope_strip intercept_strip
      x0 y0 (l ++ [e]) (x_liquid e) (y_next e).

(** The invariant of both loops: the counters are consistent and the entries
    emitted so far form a chain from the start to the current point. *)
Definition stepping_inv
    (slope_rect intercept_rect slope_strip intercept_strip : num)
    (x0 y0 : num) (s : loop_state) : Prop :=
  counters_ok s /\
  stage_chain slope_rect intercept_rect slope_strip intercept_strip
    x0 y0 (stages_data s) (x_current s) (y_current s).

(** The stepping seen on rationals.  [liquid_of] is the inverse equilibrium
    map; [operating] is the operating line a step lands on, the rectifying
    line from [x_fi] upwards and the stripping line below; [stage_count n y]
    counts the steps taken from vapor composition [y] when at most [n] are
    allowed: a step is counted, and it is the last one when its liquid
    composition is within 1 percent of [x_b]. *)
Definition liquid_of (y : Q) : Q := y / (2.4 - 1.4 * y).

Definition operating (x_fi a b s c : Q) (x : Q) : Q :=
  if Qle_bool x_fi x then a * x + b else s * x + c.

Fixpoint stage_count (x_b x_fi a b s c : Q) (n : nat) (y : Q) : nat :=
  match n with
  | O => O
  | S n' =>
      let x := liquid_of y in
      if Qle_bool x (x_b * 1.01) then 1%nat
      else S (stage_count x_b x_fi a b s c n' (operating x_fi a b s c x))
  end.

(** The lines of a design that can be stepped off: the feed point lies left
    of the distillate, the rectifying line rises to [(x_d, x_d)], and, when
    the feed point is above the bottoms tolerance, the stripping line rises
    to the feed point, which is not above the equilibrium curve. *)
Definition config_ok (x_d x_b x_fi a b s c : Q) : Prop :=
  0 < x_b /\ x_b < x_d /\ x_d < 1 /\ x_fi < x_d /\
  0 <= a /\ a * x_d + b == x_d /\
  (x_b * 1.01 < x_fi ->
   0 <= s /\ s * x_fi + c == a * x_fi + b /\
   (a * x_fi + b) * (1 + 1.4 * x_fi) <= 2.4 * x_fi).

(** The lines of a design in closed form, with [u = 1 / (R + 1)]: the
    rectifying line [y = (1 - u) x + u x_d]; the feed point on it and on the
    feed line; the stripping line through the feed point and [(x_b, x_b)]. *)
Definition design_lines (x_f x_d x_b q : Q) (u x_fi a b s c : Q) : Prop :=
  0 < u /\ u <= 1 /\ a == 1 - u /\ b == u * x_d /\
  x_fi * (1 + (q - 1) * u) == x_f + (q - 1) * u * x_d /\
  (~ x_fi == x_b -> s * (x_fi - x_b) == a * x_fi + b - x_b) /\
  c == x_b - s * x_b.

(** [x] is a zero of the residual function [f]. *)
Definition root_of (f : num -> result num) (x : num) : Prop :=
  exists r : num, f x = Ok r /\ val r == 0.

(** Both calls of [fsolve] ended on a zero of their residual function, the
    first inside the unit interval.  At [q = 1] neither call returns and
    nothing is asked. *)
Definition solver_exact (q x_f : num) (d : design) : Prop :=
  ~ val q == 1 ->
  root_of (feed_eq_intersection q x_f) (design_x_intersect d) /\
  0 < val (design_x_intersect d) /\ val (design_x_intersect d) < 1 /\
  root_of (find_feed_intersection q x_f
             (design_slope_rect d) (design_intercept_rect d))
          (design_x_feed_intersect d).

(** What the stage count needs of the two solves, less than [solver_exact]:
    the second call of [fsolve], whose residual function is linear in [x],
    ended on its zero, and the feed point it gives, when it lies above the
    bottoms tolerance, is not above the equilibrium curve.  The first call
    is only asked to be accurate enough for that; it need not end on a
    zero.  At [q = 1] neither call returns and nothing is asked. *)
Definition solver_adequate (q x_f x_b : num) (d : design) : Prop :=
  ~ val q == 1 ->
  root_of (find_feed_intersection q x_f
             (design_slope_rect d) (design_intercept_rect d))
          (design_x_feed_intersect d) /\
  (val x_b * 1.01 < val (design_x_feed_intersect d) ->
   val (design_y_feed_intersect d) * (1 + 1.4 * val (design_x_feed_intersect d))
   <= 2.4 * val (design_x_feed_intersect d)).

End McCabeThieleSpec.

Module VLEPlaygroundSpec.

Import VLEPlayground.

(** Stand-ins for the parameters, used where an example has to run.
    [pow10_chord] agrees with [10 ** e] at the integers and is linear in
    between; it never raises. *)
Definition pow10_chord (e : num) : result num :=
  let n := Qfloor (val e) in
  Ok (mknum (kind e)
        (Qred (Qpower 10 n * (1 + 9 * (val e - inject_Z n))))).

(** Interpolants of a straight bubble line from 98.42 to 68.73 degrees and
    of a dew line lying above it. *)
Definition tx_line (x : Q) : Q := 98.42 - 29.69 * x.
Definition ty_line (y : Q) : Q := 98.42 - 29.69 * y * y.

(** The first segment of the tables [generate_equilibrium_data] builds, to
    two decimals.  Both start at the hard-coded point [(0, 98.42)].  The
    first computed node of the bubble table is [(0.01, 124.11)]; that of the
    dew table, which is tabulated against [y], is [(0.0436, 125.06)]: the
    Antoine equation of the file puts the boiling point of n-heptane at
    125.34 degrees, not at 98.42. *)
Definition tx_first (x : Q) : Q := 98.42 + (124.11 - 98.42) / 0.01 * x.
Definition ty_first (y : Q) : Q := 98.42 + (125.06 - 98.42) / 0.0436 * y.

End VLEPlaygroundSpec.

(** * Part III: what the two programs draw and print

    The render functions hand numbers to matplotlib, to an f-string or to
    pandas.  The embedding keeps the numbers and the order of the calls and
    leaves out colours, line styles, axis decoration and the formatting of a
    number as text. *)




(** [numpy.rint]: the nearest integer, a tie going to the even one. *)
Definition rint (x : Q) : Z :=
  let f := Qfloor x in
  let r := x - inject_Z f in
  if Qlt_bool r (1 # 2) then f
  else if Qlt_bool (1 # 2) r then (f + 1)%Z
  else if Z.even f then f else (f + 1)%Z.


Module McCabeThieleViews.

Import McCabeThiele.

Local Open Scope num_scope.
Local Open Scope result_scope.

(** The legend entries of the McCabe-Thiele diagram; the three key points
    carry a formatted composition in their label, which is left out. *)
Inductive plot_label : Type :=
| Equilibrium_Curve
| Diagonal                     (* ['y = x'] *)
| Rectifying_Operating_Line
| Stripping_Operating_Line
| Feed_Line
| Distillate
| Bottoms
| Feed
| Feed_Stage.

(** One call [ax.plot(xdata, ydata, ..., label=...)]. *)
Record line2d : Type := mkline {
  line_label : option plot_label;
  xdata : list num;
  ydata : list num
}.




(** The feed thermal condition printed by [design_results]. *)
Inductive feed_condition : Type :=
| Subcooled_liquid
| Saturated_liquid
| Partially_vaporized
| Saturated_vapor
| Superheated_vapor.

Definition feed_thermal_condition (q : num) : feed_condition :=
  if q >? py 1 then Subcooled_liquid
  else if q =? py 1 then Saturated_liquid
  else if q >? py 0 then Partially_vaporized
  else if q =? py 0 then Saturated_vapor
  else Superheated_vapor.

(** The numbers [design_results] prints, in the order of the text: the
    three stage counts, the feed stage, the three reflux figures, [q] with
    the feed condition, and the number of actual trays. *)
Record results_text : Type := mkresults {
  text_stages_rect : Z;
  text_stages_strip : Z;
  text_total_stages : Z;
  text_optimal_feed : option Z;
  text_R_min : num;
  text_R : num;
  text_R_factor : num;
  text_q : num;
  text_feed_condition : feed_condition;
  text_actual_trays : Z
}.

Definition design_results (design : design) : results_text :=
  {| text_stages_rect := design_stages_rect design;
     text_stages_strip := design_stages_strip design;
     text_total_stages := design_total_stages design;
     text_optimal_feed := design_optimal_feed design;
     text_R_min := design_R_min design;
     text_R := design_R design;
     text_R_factor := design_R_factor design;
     text_q := design_q design;
     text_feed_condition := feed_thermal_condition (design_q design);
     text_actual_trays := design_total_stages design |}.





End McCabeThieleViews.

Module VLEPlaygroundViews.

Import VLEPlayground.

Local Open Scope num_scope.
Local Open Scope result_scope.


Section EquilibriumData.

Variable pow10 : num -> result num.
Variable hybrd : (num -> result num) -> Q -> Q.
Let fsolve := fsolve hybrd.








End EquilibriumData.

(** The legend entries of the phase diagram. *)
Inductive curve_label : Type := Bubble_point | Dew_point | Operating_point.

(** One call [ax.plot(xdata, ydata, ..., label=...)]. *)
Record line2d : Type := mkline {
  line_label : option curve_label;
  xdata : list num;
  ydata : list num
}.


Section Diagram.

Variable pow10 : num -> result num.

(** The module-level lists [x_eq], [t_bubble], [t_dew], [y_eq]. *)
Variables x_eq t_bubble_eq t_dew_eq y_eq : list num.




End Diagram.




End VLEPlaygroundViews.

(** ** Vocabulary of the statements about them *)

Module StagesSpec.

Import McCabeThiele.









End StagesSpec.

Module ViewsSpec.

Import McCabeThiele McCabeThieleViews.




End ViewsSpec.

Module FlashSpec.

Import VLEPlayground VLEPlaygroundViews.




End FlashSpec.

(** * Part IV: properties *)

Lemma Qlt_bool_iff (a b : Q) : Qlt_bool a b = true <-> a < b.
Proof.
  unfold Qlt_bool. rewrite negb_true_iff.
  split; intro H.
  - apply Qnot_le_lt. intro Hle. apply Qle_bool_iff in Hle. congruence.
  - destruct (Qle_bool b a) eqn:E; [|reflexivity].
    apply Qle_bool_iff in E. exfalso. apply (Qlt_not_le _ _ H E).
Qed.

Lemma Qlt_bool_false_iff (a b : Q) : Qlt_bool a b = false <-> b <= a.
Proof.
  unfold Qlt_bool. rewrite negb_false_iff. apply Qle_bool_iff.
Qed.

Lemma Qle_bool_false_iff (a b : Q) : Qle_bool a b = false <-> b < a.
Proof.
  rewrite <- Qlt_bool_iff. unfold Qlt_bool.
  destruct (Qle_bool a b); simpl; intuition congruence.
Qed.

Lemma Qeq_bool_false_iff (a b : Q) : Qeq_bool a b = false <-> ~ a == b.
Proof.
  split.
  - apply Qeq_bool_neq.
  - intro H. destruct (Qeq_bool a b) eqn:E; [|reflexivity].
    apply Qeq_bool_iff in E. contradiction.
Qed.

#[global] Instance Qlt_bool_comp : Proper (Qeq ==> Qeq ==> eq) Qlt_bool.
Proof.
  intros a a' Ha b b' Hb. unfold Qlt_bool. now rewrite Ha, Hb.
Qed.

Lemma ndiv_ok (a b : num) :
  ~ val b == 0 ->
  (a / b)%num = Ok (mknum (kjoin (kind a) (kind b)) (Qred (val a / val b))).
Proof.
  intro H. unfold ndiv. apply Qeq_bool_false_iff in H. now rewrite H.
Qed.

Lemma ndiv_py_zero (a b : Q) :
  b == 0 -> (py a / py b)%num = Stop ZeroDivisionError.
Proof.
  intro H. unfold ndiv. simpl. apply Qeq_bool_iff in H. now rewrite H.
Qed.

Lemma ndiv_inv (a b r : num) :
  (a / b)%num = Ok r ->
  ~ val b == 0 /\ r = mknum (kjoin (kind a) (kind b)) (Qred (val a / val b)).
Proof.
  unfold ndiv. destruct (Qeq_bool (val b) 0) eqn:E.
  - destruct (kjoin (kind a) (kind b)); discriminate.
  - intro H. injection H as <-. split; [now apply Qeq_bool_false_iff | reflexivity].
Qed.

Lemma ndiv_not_out_of_fuel (a b : num) : (a / b)%num <> Stop OutOfFuel.
Proof.
  unfold ndiv. destruct (Qeq_bool (val b) 0); [|discriminate].
  destruct (kjoin (kind a) (kind b)); discriminate.
Qed.

Lemma fsolve_returns (hybrd : (num -> result num) -> Q -> Q)
    (func : num -> result num) (x0 : num) :
  (forall h, func (np (val x0)) = Stop h -> is_exception h = false) ->
  fsolve hybrd func x0 = Ok (np (hybrd func (val x0))).
Proof.
  intro H. unfold fsolve.
  destruct (func (np (val x0))) as [r|h]; [reflexivity|].
  now rewrite (H h eq_refl).
Qed.

Lemma fsolve_raises (hybrd : (num -> result num) -> Q -> Q)
    (func : num -> result num) (x0 : num) (h : halt) :
  func (np (val x0)) = Stop h -> is_exception h = true ->
  fsolve hybrd func x0 = Stop h.
Proof.
  intros H He. unfold fsolve. now rewrite H, He.
Qed.

Lemma bind_ok_inv {A B : Type} (m : result A) (f : A -> result B) (b : B) :
  bind m f = Ok b -> exists a, m = Ok a /\ f a = Ok b.
Proof.
  destruct m as [a|h]; simpl; [eauto | discriminate].
Qed.

Lemma try_except_ok {A : Type} (a : A) (handler : result A) :
  try_except (Ok a) handler = Ok a.
Proof. reflexivity. Qed.



Lemma val_nmul (a b : num) : val (a * b)%num == val a * val b.
Proof. apply Qred_correct. Qed.

#[global] Arguments Qred : simpl never.

(** Unfold the arithmetic of [num] down to rationals. *)
Ltac nsimpl :=
  cbn [val kind nadd nsub nmul py np kjoin fst snd] in *;
  rewrite ?Qred_correct in *.

(** Split a hypothesis [x <- m ;; k = Ok r] into its two steps. *)
Ltac bind_inv H :=
  let a := fresh "a" in
  let Ha := fresh "Hstep" in
  apply bind_ok_inv in H; destruct H as (a & Ha & H).

(** ** Properties of [McCabe_Thiele_App.py] *)

Module McCabeThieleProps.

Import McCabeThiele McCabeThieleSpec.

Local Open Scope result_scope.

(** *** Material balance *)

Lemma material_balance_inv (F x_f x_d x_b D B : num) :
  material_balance F x_f x_d x_b = Ok (D, B) ->
  ~ val x_d == val x_b /\
  val D == val F * (val x_f - val x_b) / (val x_d - val x_b) /\
  val B == val F - val D.
Proof.
  unfold material_balance. intro H. bind_inv H.
  apply ndiv_inv in Hstep. destruct Hstep as [Hnz ->].
  injection H as <- <-. nsimpl.
  split; [|split; reflexivity].
  intro E. apply Hnz. rewrite E. ring.
Qed.

Lemma material_balance_total (F x_f x_d x_b : num) :
  ~ val x_d == val x_b ->
  exists D B, material_balance F x_f x_d x_b = Ok (D, B).
Proof.
  intro Hne. unfold material_balance.
  rewrite ndiv_ok.
  - simpl. eauto.
  - nsimpl. intro E. apply Hne. lra.
Qed.

(** C1.  Whenever [x_d <> x_b] the material balance returns
    [D = F (x_f - x_b) / (x_d - x_b)] and [B = F - D]; these satisfy
    [D + B = F] and [F x_f = D x_d + B x_b] exactly.  For [F = 100],
    [x_f = 0.5], [x_b = 0.05], [x_d = 0.95] it returns [D = 50] and
    [B = 50]. *)
Theorem material_balance_conserves :
  (forall F x_f x_d x_b : num,
      ~ val x_d == val x_b ->
      exists D B,
        material_balance F x_f x_d x_b = Ok (D, B) /\
        val D == val F * (val x_f - val x_b) / (val x_d - val x_b) /\
        val B == val F - val D /\
        val D + val B == val F /\
        val F * val x_f == val D * val x_d + val B * val x_b) /\
  material_balance (py 100) (py 0.5) (py 0.95) (py 0.05) = Ok (py 50, py 50).
Proof.
  split; [|reflexivity].
  intros F x_f x_d x_b Hne.
  destruct (material_balance_total F x_f x_d x_b Hne) as (D & B & Hmb).
  exists D, B. split; [exact Hmb|].
  apply material_balance_inv in Hmb. destruct Hmb as (_ & HD & HB).
  split; [exact HD|]. split; [exact HB|]. split.
  - rewrite HB. ring.
  - rewrite HB, HD. field. intro E. apply Hne. lra.
Qed.

Lemma material_balance_conserves_witness :
  ~ val (py 0.9) == val (py 0.1) /\
  exists D B,
    material_balance (py 200) (py 0.4) (py 0.9) (py 0.1) = Ok (D, B) /\
    val D == 200 * (0.4 - 0.1) / (0.9 - 0.1) /\
    val B == 200 - val D /\
    val D + val B == 200 /\
    200 * 0.4 == val D * 0.9 + val B * 0.1.
Proof.
  assert (Hne : ~ val (py 0.9) == val (py 0.1)) by (simpl; lra).
  split; [exact Hne|].
  exact (proj1 material_balance_conserves (py 200) (py 0.4) (py 0.9) (py 0.1) Hne).
Defined.

(** The ordering [x_b < x_f < x_d] is not looked at: with [x_f] below [x_b]
    the balance is returned like any other, here with a negative distillate
    rate and a bottoms rate above the feed rate. *)
Lemma material_balance_unordered_returns :
  ~ (0.5 < 0.3 /\ 0.3 < 0.9) /\
  material_balance (py 100) (py 0.3) (py 0.9) (py 0.5) = Ok (py (-50), py 150).
Proof.
  split; [lra | reflexivity].
Qed.

(** C7, as the program has it.  The material balance stops exactly when
    [x_d = x_b], and then with Python's [ZeroDivisionError]; in every other
    case, whatever the order of [x_b], [x_f] and [x_d], it returns
    [D = F (x_f - x_b) / (x_d - x_b)] and [B = F - D]. *)
Theorem material_balance_fails_iff (F x_f x_d x_b : Q) :
  (x_d == x_b ->
   material_balance (py F) (py x_f) (py x_d) (py x_b) = Stop ZeroDivisionError) /\
  (~ x_d == x_b ->
   exists D B,
     material_balance (py F) (py x_f) (py x_d) (py x_b) = Ok (D, B) /\
     val D == F * (x_f - x_b) / (x_d - x_b) /\
     val B == F - val D).
Proof.
  split.
  - intro E. unfold material_balance, ndiv. nsimpl.
    assert (Hz : Qeq_bool (x_d - x_b) 0 = true).
    { apply Qeq_bool_iff. lra. }
    now rewrite Hz.
  - intro Hne.
    destruct (material_balance_total (py F) (py x_f) (py x_d) (py x_b) Hne)
      as (D & B & Hmb).
    exists D, B. split; [exact Hmb|].
    apply material_balance_inv in Hmb. tauto.
Qed.

Lemma material_balance_fails_iff_witness :
  material_balance (py 100) (py 0.5) (py 0.5) (py 0.5) = Stop ZeroDivisionError /\
  exists D B,
    material_balance (py 100) (py 0.3) (py 0.9) (py 0.5) = Ok (D, B) /\
    val D == 100 * (0.3 - 0.5) / (0.9 - 0.5) /\
    val B == 100 - val D.
Proof.
  split.
  - apply (proj1 (material_balance_fails_iff 100 0.5 0.5 0.5)). reflexivity.
  - apply (proj2 (material_balance_fails_iff 100 0.3 0.9 0.5)). lra.
Defined.

(** *** Equilibrium relation *)

Lemma equilibrium_curve_value (x : num) :
  ~ 1 + 1.4 * val x == 0 ->
  exists y, equilibrium_curve x = Ok y /\
            val y == 2.4 * val x / (1 + 1.4 * val x).
Proof.
  intro Hnz. unfold equilibrium_curve. rewrite ndiv_ok.
  - eexists. split; [reflexivity|]. nsimpl. field. exact Hnz.
  - nsimpl. intro E. apply Hnz. lra.
Qed.

Lemma x_from_y_equilibrium_value (y : num) :
  ~ 2.4 - 1.4 * val y == 0 ->
  exists x, x_from_y_equilibrium y = Ok x /\
            val x == val y / (2.4 - 1.4 * val y).
Proof.
  intro Hnz. unfold x_from_y_equilibrium. rewrite ndiv_ok.
  - eexists. split; [reflexivity|]. nsimpl. field. exact Hnz.
  - nsimpl. intro E. apply Hnz. lra.
Qed.


Lemma equilibrium_curve_inv (x y : num) :
  equilibrium_curve x = Ok y ->
  ~ 1 + 1.4 * val x == 0 /\ val y == 2.4 * val x / (1 + 1.4 * val x).
Proof.
  unfold equilibrium_curve. intro H.
  apply ndiv_inv in H. destruct H as [Hnz ->]. nsimpl.
  assert (Hnz' : ~ 1 + 1.4 * val x == 0) by (intro E; apply Hnz; lra).
  split; [exact Hnz'|]. field. exact Hnz'.
Qed.

(** C2.  For every [x] strictly between 0 and 1 both equilibrium maps are
    defined and [x_from_y_equilibrium (equilibrium_curve x) = x]: with
    [alpha = 2.4], [y = alpha x / (1 + (alpha - 1) x)] is inverted exactly
    by [y / (alpha - y (alpha - 1))]. *)
Theorem equilibrium_round_trip (x : num) :
  0 < val x -> val x < 1 ->
  exists y x',
    equilibrium_curve x = Ok y /\
    val y == 2.4 * val x / (1 + (2.4 - 1) * val x) /\
    x_from_y_equilibrium y = Ok x' /\
    val x' == val y / (2.4 - val y * (2.4 - 1)) /\
    val x' == val x.
Proof.
  intros H0 H1.
  assert (Hd : ~ 1 + 1.4 * val x == 0) by lra.
  destruct (equilibrium_curve_value x Hd) as (y & Hy & Hyv).
  assert (Hy1 : val y * (1 + 1.4 * val x) == 2.4 * val x).
  { rewrite Hyv. field. exact Hd. }
  assert (Hylt : val y < 1) by nra.
  assert (Hd' : ~ 2.4 - 1.4 * val y == 0) by lra.
  destruct (x_from_y_equilibrium_value y Hd') as (x' & Hx & Hxv).
  exists y, x'. split; [exact Hy|]. split; [|split; [exact Hx|split]].
  - rewrite Hyv. field. lra.
  - rewrite Hxv. field. lra.
  - assert (Hx1 : val x' * (2.4 - 1.4 * val y) == val y).
    { rewrite Hxv. field. exact Hd'. }
    nra.
Qed.

Lemma equilibrium_round_trip_witness :
  exists y x',
    equilibrium_curve (py 0.5) = Ok y /\
    val y == 2.4 * 0.5 / (1 + (2.4 - 1) * 0.5) /\
    x_from_y_equilibrium y = Ok x' /\
    val x' == val y / (2.4 - val y * (2.4 - 1)) /\
    val x' == 0.5.
Proof.
  apply (equilibrium_round_trip (py 0.5)); simpl; lra.
Defined.

(** *** The stepping loops *)

Section LoopFacts.

Variable x_b : num.
Variable test : loop_state -> bool.
Variable body : loop_state -> result loop_state.

Hypothesis body_counts :
  forall s s', body s = Ok s' -> stage_num s' = (stage_num s + 1)%Z.
Hypothesis body_fuel : forall s, body s <> Stop OutOfFuel.

Lemma stepping_loop_not_out_of_fuel (fuel : nat) :
  forall s, (50 - stage_num s <= Z.of_nat fuel)%Z ->
  stepping_loop x_b test body fuel s <> Stop OutOfFuel.
Proof.
  induction fuel as [|fuel IH]; intros s Hfuel; simpl.
  - destruct (test s); simpl; [|discriminate].
    destruct (stage_num s <? 50)%Z eqn:E; [|discriminate].
    apply Z.ltb_lt in E. lia.
  - destruct (test s && (stage_num s <? 50)%Z); [|discriminate].
    destruct (body s) as [s'|h] eqn:Eb; simpl.
    + destruct (x_current s' <=? x_b * py 1.01)%num; [discriminate|].
      apply IH. rewrite (body_counts _ _ Eb). lia.
    + intro E. apply (body_fuel s). congruence.
Qed.

Lemma stepping_loop_fuel (fuel : nat) :
  forall s fuel',
    (50 - stage_num s <= Z.of_nat fuel)%Z ->
    (50 - stage_num s <= Z.of_nat fuel')%Z ->
    stepping_loop x_b test body fuel s = stepping_loop x_b test body fuel' s.
Proof.
  induction fuel as [|fuel IH]; intros s fuel' Hf Hf'.
  - destruct fuel' as [|fuel']; [reflexivity|]. simpl.
    destruct (test s); simpl; [|reflexivity].
    destruct (stage_num s <? 50)%Z eqn:E; [|reflexivity].
    apply Z.ltb_lt in E. lia.
  - destruct fuel' as [|fuel']; simpl.
    + destruct (test s); simpl; [|reflexivity].
      destruct (stage_num s <? 50)%Z eqn:E; [|reflexivity].
      apply Z.ltb_lt in E. lia.
    + destruct (test s && (stage_num s <? 50)%Z); [|reflexivity].
      destruct (body s) as [s'|h] eqn:Eb; simpl; [|reflexivity].
      destruct (x_current s' <=? x_b * py 1.01)%num; [reflexivity|].
      apply IH; rewrite (body_counts _ _ Eb); lia.
Qed.

Variable Inv : loop_state -> Prop.

Hypothesis body_inv :
  forall s s', Inv s -> test s = true -> (stage_num s < 50)%Z ->
               body s = Ok s' -> Inv s'.

Lemma stepping_loop_invariant (fuel : nat) :
  forall s s', Inv s -> stepping_loop x_b test body fuel s = Ok s' ->
  Inv s' /\
  (test s' = false \/ (50 <= stage_num s')%Z \/
   val (x_current s') <= val x_b * 1.01).
Proof.
  induction fuel as [|fuel IH]; intros s s' HI; simpl.
  - destruct (test s) eqn:Et; simpl.
    + destruct (stage_num s <? 50)%Z eqn:E; [discriminate|].
      intro H. injection H as <-. apply Z.ltb_ge in E. auto.
    + intro H. injection H as <-. auto.
  - destruct (test s) eqn:Et; simpl.
    + destruct (stage_num s <? 50)%Z eqn:E.
      * apply Z.ltb_lt in E.
        destruct (body s) as [s1|h] eqn:Eb; simpl; [|discriminate].
        assert (HI1 : Inv s1) by (eapply body_inv; eauto).
        destruct (x_current s1 <=? x_b * py 1.01)%num eqn:Ebrk.
        -- intro H. injection H as <-. split; [exact HI1|].
           right. right. unfold nle in Ebrk. apply Qle_bool_iff in Ebrk.
           nsimpl. exact Ebrk.
        -- apply IH. exact HI1.
      * intro H. injection H as <-. apply Z.ltb_ge in E. auto.
    + intro H. injection H as <-. auto.
Qed.

End LoopFacts.

Section SteppingFacts.

Variables x_b x_feed_intersect : num.
Variables slope_rect intercept_rect slope_strip intercept_strip : num.

Let rect_body := rect_body x_feed_intersect
                   slope_rect intercept_rect slope_strip intercept_strip.
Let strip_body := strip_body slope_strip intercept_strip.
Let emitted_by := emitted_by slope_rect intercept_rect slope_strip intercept_strip.
Let stage_chain := stage_chain slope_rect intercept_rect slope_strip intercept_strip.
Let stepping_inv := stepping_inv slope_rect intercept_rect slope_strip intercept_strip.

Lemma rect_body_inv (s s' : loop_state) :
  rect_body s = Ok s' ->
  exists x_new y_new section,
    x_from_y_equilibrium (y_current s) = Ok x_new /\
    s' = {| x_current := x_new; y_current := y_new;
            stage_num := stage_num s + 1;
            stages_rect := match section with
                           | Rectifying => stages_rect s + 1
                           | Stripping => stages_rect s + 1 - 1
                           end;
            stages_strip := match section with
                            | Rectifying => stages_strip s
                            | Stripping => stages_strip s + 1
                            end;
            feed_stage := match section with
                          | Rectifying => feed_stage s
                          | Stripping => Some (stage_num s + 1)%Z
                          end;
            stages_data := stages_data s ++
              [ {| Stage := stage_num s + 1; SectionTag := section;
                   x_liquid := x_new; y_vapor := y_current s;
                   x_next := x_current s; y_next := y_new |} ] |} /\
    match section with
    | Rectifying =>
        val x_feed_intersect <= val x_new /\
        y_new = (slope_rect * x_new + intercept_rect)%num
    | Stripping =>
        val x_new < val x_feed_intersect /\
        y_new = (slope_strip * x_new + intercept_strip)%num
    end.
Proof.
  unfold rect_body, McCabeThiele.rect_body. intro H. bind_inv H.
  rename a into x_new.
  destruct (x_new >=? x_feed_intersect)%num eqn:E; injection H as <-.
  - exists x_new, (slope_rect * x_new + intercept_rect)%num, Rectifying.
    split; [exact Hstep|]. split; [reflexivity|].
    split; [|reflexivity]. unfold nge in E. now apply Qle_bool_iff in E.
  - exists x_new, (slope_strip * x_new + intercept_strip)%num, Stripping.
    split; [exact Hstep|]. split; [reflexivity|].
    split; [|reflexivity]. unfold nge in E. now apply Qle_bool_false_iff in E.
Qed.

Lemma strip_body_inv (s s' : loop_state) :
  strip_body s = Ok s' ->
  exists x_new,
    x_from_y_equilibrium (y_current s) = Ok x_new /\
    s' = {| x_current := x_new;
            y_current := (slope_strip * x_new + intercept_strip)%num;
            stage_num := stage_num s + 1;
            stages_rect := stages_rect s;
            stages_strip := stages_strip s + 1;
            feed_stage := feed_stage s;
            stages_data := stages_data s ++
              [ {| Stage := stage_num s + 1; SectionTag := Stripping;
                   x_liquid := x_new; y_vapor := y_current s;
                   x_next := x_current s;
                   y_next := (slope_strip * x_new + intercept_strip)%num |} ] |}.
Proof.
  unfold strip_body, McCabeThiele.strip_body. intro H. bind_inv H.
  injection H as <-. eauto.
Qed.

Lemma rect_body_counts (s s' : loop_state) :
  rect_body s = Ok s' -> stage_num s' = (stage_num s + 1)%Z.
Proof.
  intro H. apply rect_body_inv in H.
  destruct H as (x_new & y_new & section & _ & -> & _). reflexivity.
Qed.

Lemma strip_body_counts (s s' : loop_state) :
  strip_body s = Ok s' -> stage_num s' = (stage_num s + 1)%Z.
Proof.
  intro H. apply strip_body_inv in H. destruct H as (x_new & _ & ->).
  reflexivity.
Qed.

Lemma x_from_y_equilibrium_fuel (y : num) :
  x_from_y_equilibrium y <> Stop OutOfFuel.
Proof. apply ndiv_not_out_of_fuel. Qed.

Lemma rect_body_fuel (s : loop_state) : rect_body s <> Stop OutOfFuel.
Proof.
  unfold rect_body, McCabeThiele.rect_body.
  destruct (x_from_y_equilibrium (y_current s)) as [x|h] eqn:E; simpl.
  - destruct (x >=? x_feed_intersect)%num; discriminate.
  - intro H. apply (x_from_y_equilibrium_fuel (y_current s)). congruence.
Qed.

Lemma strip_body_fuel (s : loop_state) : strip_body s <> Stop OutOfFuel.
Proof.
  unfold strip_body, McCabeThiele.strip_body.
  destruct (x_from_y_equilibrium (y_current s)) as [x|h] eqn:E; simpl.
  - discriminate.
  - intro H. apply (x_from_y_equilibrium_fuel (y_current s)). congruence.
Qed.

Lemma rect_body_preserves (x0 y0 : num) (s s' : loop_state) :
  stepping_inv x0 y0 s -> (stage_num s < 50)%Z ->
  rect_body s = Ok s' -> stepping_inv x0 y0 s'.
Proof.
  intros [(Hr & Hs & Hsum & Hlen & Hcap) Hchain] Hlt H.
  apply rect_body_inv in H.
  destruct H as (x_new & y_new & section & Hx & -> & Hsec).
  split.
  - unfold counters_ok. cbn [McCabeThiele.stages_rect McCabeThiele.stages_strip
      McCabeThiele.stage_num McCabeThiele.stages_data].
    rewrite length_app. cbn [length]. destruct section; lia.
  - cbn [McCabeThiele.stages_data McCabeThiele.x_current McCabeThiele.y_current].
    apply (chain_step _ _ _ _ _ _ _ _ _
             {| Stage := stage_num s + 1; SectionTag := section;
                x_liquid := x_new; y_vapor := y_current s;
                x_next := x_current s; y_next := y_new |} Hchain).
    unfold emitted_by, McCabeThieleSpec.emitted_by.
    cbn [Stage SectionTag x_liquid y_vapor x_next y_next].
    split; [lia|]. split; [exact Hx|]. split; [reflexivity|].
    split; [reflexivity|]. destruct section; tauto.
Qed.

Lemma strip_body_preserves (x0 y0 : num) (s s' : loop_state) :
  stepping_inv x0 y0 s -> (stage_num s < 50)%Z ->
  strip_body s = Ok s' -> stepping_inv x0 y0 s'.
Proof.
  intros [(Hr & Hs & Hsum & Hlen & Hcap) Hchain] Hlt H.
  apply strip_body_inv in H. destruct H as (x_new & Hx & ->).
  split.
  - unfold counters_ok. cbn [McCabeThiele.stages_rect McCabeThiele.stages_strip
      McCabeThiele.stage_num McCabeThiele.stages_data].
    rewrite length_app. cbn [length]. lia.
  - cbn [McCabeThiele.stages_data McCabeThiele.x_current McCabeThiele.y_current].
    apply (chain_step _ _ _ _ _ _ _ _ _
             {| Stage := stage_num s + 1; SectionTag := Stripping;
                x_liquid := x_new; y_vapor := y_current s;
                x_next := x_current s;
                y_next := (slope_strip * x_new + intercept_strip)%num |} Hchain).
    unfold emitted_by, McCabeThieleSpec.emitted_by.
    cbn [Stage SectionTag x_liquid y_vapor x_next y_next].
    split; [lia|]. split; [exact Hx|]. repeat split.
Qed.

Lemma default_feed_stage_inv (x0 y0 : num) (s : loop_state) :
  stepping_inv x0 y0 s -> stepping_inv x0 y0 (default_feed_stage s).
Proof.
  unfold default_feed_stage. destruct (feed_stage s); [tauto|].
  intros [Hc Hchain]. split; assumption.
Qed.

Lemma default_feed_stage_num (s : loop_state) :
  stage_num (default_feed_stage s) = stage_num s.
Proof. unfold default_feed_stage. now destruct (feed_stage s). Qed.

Lemma default_feed_stage_x (s : loop_state) :
  x_current (default_feed_stage s) = x_current s.
Proof. unfold default_feed_stage. now destruct (feed_stage s). Qed.

Lemma default_feed_stage_y (s : loop_state) :
  y_current (default_feed_stage s) = y_current s.
Proof. unfold default_feed_stage. now destruct (feed_stage s). Qed.

Let run_stages := run_stages x_b x_feed_intersect
                    slope_rect intercept_rect slope_strip intercept_strip.

Lemma run_stages_fuel (fuel : nat) (x_d : num) :
  (50 <= fuel)%nat ->
  run_stages fuel x_d = run_stages 50 x_d /\
  run_stages fuel x_d <> Stop OutOfFuel.
Proof.
  intro Hfuel. unfold run_stages, McCabeThiele.run_stages, rect_loop, strip_loop.
  set (s0 := {| x_current := x_d; y_current := x_d; stage_num := 0;
                stages_rect := 0; stages_strip := 0; feed_stage := None;
                stages_data := [] |}).
  assert (Hinv0 : stepping_inv x_d x_d s0).
  { split; [unfold counters_ok; simpl; lia | constructor]. }
  rewrite (stepping_loop_fuel x_b _ _ rect_body_counts fuel s0 50%nat)
    by (simpl; lia).
  pose proof (stepping_loop_not_out_of_fuel x_b
                (fun s => (x_current s >? x_feed_intersect)%num)
                _ rect_body_counts rect_body_fuel 50 s0) as Hnf.
  destruct (stepping_loop x_b _ _ 50 s0) as [s1|h] eqn:E1; cbn [bind].
  - pose proof (stepping_loop_invariant x_b _ _ (stepping_inv x_d x_d)
                  (fun s s' HI _ Hlt Hb => rect_body_preserves x_d x_d s s' HI Hlt Hb)
                  50 s0 s1 Hinv0 E1) as [[Hc1 _] _].
    destruct Hc1 as (_ & _ & _ & Hlen & _).
    assert (H0 : (0 <= stage_num (default_feed_stage s1))%Z).
    { rewrite default_feed_stage_num. lia. }
    split.
    + apply (stepping_loop_fuel x_b _ _ strip_body_counts); lia.
    + apply (stepping_loop_not_out_of_fuel x_b _ _ strip_body_counts strip_body_fuel).
      lia.
  - split; [reflexivity|]. intro H. apply Hnf; [simpl; lia|congruence].
Qed.

Lemma run_stages_inv (fuel : nat) (x_d : num) (s : loop_state) :
  run_stages fuel x_d = Ok s ->
  stepping_inv x_d x_d s /\
  ((50 <= stage_num s)%Z \/ val (x_current s) <= val x_b * 1.01).
Proof.
  unfold run_stages, McCabeThiele.run_stages, rect_loop, strip_loop.
  set (s0 := {| x_current := x_d; y_current := x_d; stage_num := 0;
                stages_rect := 0; stages_strip := 0; feed_stage := None;
                stages_data := [] |}).
  assert (Hinv0 : stepping_inv x_d x_d s0).
  { split; [unfold counters_ok; simpl; lia | constructor]. }
  intro H. bind_inv H. rename a into s1.
  pose proof (stepping_loop_invariant x_b _ _ (stepping_inv x_d x_d)
                (fun s s' HI _ Hlt Hb => rect_body_preserves x_d x_d s s' HI Hlt Hb)
                fuel s0 s1 Hinv0 Hstep) as [Hinv1 _].
  apply default_feed_stage_inv in Hinv1.
  pose proof (stepping_loop_invariant x_b _ _ (stepping_inv x_d x_d)
                (fun s s' HI _ Hlt Hb => strip_body_preserves x_d x_d s s' HI Hlt Hb)
                fuel _ s Hinv1 H) as [Hinv2 Hexit].
  split; [exact Hinv2|].
  destruct Hexit as [Ht|[Hcap|Hx]]; [|left; exact Hcap|right; exact Hx].
  right. unfold ngt in Ht. apply Qlt_bool_false_iff in Ht. nsimpl. exact Ht.
Qed.

End SteppingFacts.

(** *** What [calculate_stages] returns *)

Section StagesFacts.

Variables x_d x_b x_feed_intersect y_feed_intersect : num.
Variables slope_rect intercept_rect slope_strip intercept_strip : num.

Let run_stages := run_stages x_b x_feed_intersect
                    slope_rect intercept_rect slope_strip intercept_strip.
Let stage_chain := stage_chain slope_rect intercept_rect slope_strip intercept_strip.

Lemma calculate_stages_fuel_inv (fuel : nat)
    (r st : Z) (f : option Z) (data : list stage_entry) :
  calculate_stages_fuel fuel x_d x_b x_feed_intersect y_feed_intersect
    slope_rect intercept_rect slope_strip intercept_strip = Ok (r, st, f, data) ->
  exists s, run_stages fuel x_d = Ok s /\
            r = stages_rect s /\ st = stages_strip s /\
            f = feed_stage s /\ data = stages_data s.
Proof.
  unfold calculate_stages_fuel. intro H. bind_inv H.
  injection H as <- <- <- <-. exists a. auto.
Qed.

Lemma calculate_stages_bounds
    (r st : Z) (f : option Z) (data : list stage_entry) :
  calculate_stages x_d x_b x_feed_intersect y_feed_intersect
    slope_rect intercept_rect slope_strip intercept_strip = Ok (r, st, f, data) ->
  (length data <= 50)%nat /\ (0 <= r)%Z /\ (0 <= st)%Z /\
  (r + st = Z.of_nat (length data))%Z /\ (r + st <= 50)%Z.
Proof.
  intro H. apply calculate_stages_fuel_inv in H.
  destruct H as (s & Hrun & -> & -> & -> & ->).
  apply run_stages_inv in Hrun.
  destruct Hrun as [[(Hr & Hs & Hsum & Hlen & Hcap) _] _]. lia.
Qed.

Lemma stage_chain_end (l : list stage_entry) (x y : num) :
  stage_chain x_d x_d l x y ->
  match l with
  | [] => x = x_d /\ y = x_d
  | _ :: _ =>
      exists e, nth_error l (length l - 1) = Some e /\
                x = x_liquid e /\ y = y_next e
  end.
Proof.
  intro H. destruct H as [|l x y e Hl He].
  - auto.
  - assert (Hnth : nth_error (l ++ [e]) (length (l ++ [e]) - 1) = Some e).
    { rewrite length_app. cbn [length].
      replace (length l + 1 - 1)%nat with (length l) by lia.
      rewrite nth_error_app2 by lia. now rewrite Nat.sub_diag. }
    destruct (l ++ [e]) eqn:E.
    + destruct l; discriminate.
    + exists e. auto.
Qed.

Lemma stage_chain_entries (l : list stage_entry) (x y : num) :
  stage_chain x_d x_d l x y ->
  forall (i : nat) (e : stage_entry),
    nth_error l i = Some e ->
    Stage e = (Z.of_nat i + 1)%Z /\
    x_from_y_equilibrium (y_vapor e) = Ok (x_liquid e) /\
    y_next e = match SectionTag e with
               | Rectifying => (slope_rect * x_liquid e + intercept_rect)%num
               | Stripping => (slope_strip * x_liquid e + intercept_strip)%num
               end /\
    match i with
    | O => x_next e = x_d /\ y_vapor e = x_d
    | S j => exists e', nth_error l j = Some e' /\
                        x_next e = x_liquid e' /\ y_vapor e = y_next e'
    end.
Proof.
  induction 1 as [|l x y e0 Hl IH He]; intros i e Hnth.
  - destruct i; discriminate.
  - destruct (Nat.lt_ge_cases i (length l)) as [Hlt|Hge].
    + rewrite nth_error_app1 in Hnth by exact Hlt.
      destruct (IH i e Hnth) as (H1 & H2 & H3 & H4).
      split; [exact H1|]. split; [exact H2|]. split; [exact H3|].
      destruct i as [|j]; [exact H4|].
      destruct H4 as (e' & He' & Hx & Hy). exists e'.
      split; [|auto]. rewrite nth_error_app1; [exact He'|lia].
    + assert (Hi : i = length l).
      { assert (Hb : (i < length (l ++ [e0]))%nat)
          by (apply nth_error_Some; congruence).
        rewrite length_app in Hb. cbn [length] in Hb. lia. }
      subst i. rewrite nth_error_app2, Nat.sub_diag in Hnth by lia.
      injection Hnth as <-.
      destruct He as (Hst & Hinv & Hyv & Hxn & Hyn).
      split; [exact Hst|]. rewrite Hyv. split; [exact Hinv|].
      split; [exact Hyn|].
      apply stage_chain_end in Hl. destruct l as [|e1 l1].
      * cbn [length]. destruct Hl as [-> ->]. auto.
      * destruct Hl as (e' & He' & -> & ->).
        change (length (e1 :: l1)) with (S (length l1)) in *.
        replace (S (length l1) - 1)%nat with (length l1) in He' by lia.
        exists e'. split; [|auto].
        rewrite nth_error_app1; [exact He'|].
        apply nth_error_Some. congruence.
Qed.

(** C3.  For every input the stepping of [calculate_stages] comes to an
    end: fifty iterations per loop are always enough, and any larger budget
    gives the same outcome.  When it returns, it has stopped because
    [x_current <= 1.01 x_b] or because [stage_num] reached the cap of 50; the
    list of stages has [stage_num <= 50] entries and
    [stages_rect + stages_strip = stage_num <= 50]. *)
Theorem calculate_stages_terminates (fuel : nat) :
  (50 <= fuel)%nat ->
  calculate_stages_fuel fuel x_d x_b x_feed_intersect y_feed_intersect
    slope_rect intercept_rect slope_strip intercept_strip
  = calculate_stages x_d x_b x_feed_intersect y_feed_intersect
      slope_rect intercept_rect slope_strip intercept_strip /\
  calculate_stages_fuel fuel x_d x_b x_feed_intersect y_feed_intersect
    slope_rect intercept_rect slope_strip intercept_strip
  <> Stop OutOfFuel /\
  (forall s : loop_state,
      run_stages fuel x_d = Ok s ->
      (val (x_current s) <= val x_b * 1.01 \/ stage_num s = 50%Z) /\
      Z.of_nat (length (stages_data s)) = stage_num s /\
      (stages_rect s + stages_strip s = stage_num s)%Z /\
      (stage_num s <= 50)%Z) /\
  (forall (r st : Z) (f : option Z) (data : list stage_entry),
      calculate_stages x_d x_b x_feed_intersect y_feed_intersect
        slope_rect intercept_rect slope_strip intercept_strip
      = Ok (r, st, f, data) ->
      (length data <= 50)%nat /\ (r + st <= 50)%Z).
Proof.
  intro Hfuel.
  destruct (run_stages_fuel x_b x_feed_intersect slope_rect intercept_rect
              slope_strip intercept_strip fuel x_d Hfuel) as [Heq Hnf].
  split; [|split; [|split]].
  - unfold calculate_stages, calculate_stages_fuel. now rewrite Heq.
  - unfold calculate_stages_fuel.
    destruct (McCabeThiele.run_stages _ _ _ _ _ _ fuel x_d) as [s|h];
      cbn [bind]; congruence.
  - intros s Hrun. apply run_stages_inv in Hrun.
    destruct Hrun as [[(Hr & Hs & Hsum & Hlen & Hcap) _] Hexit].
    split; [|auto]. destruct Hexit as [H50|Hx]; [right; lia|left; exact Hx].
  - intros r st f data H. apply calculate_stages_bounds in H. tauto.
Qed.

(** C9, as the program has it.  In the list [calculate_stages] returns the
    entry at position [i] has [Stage = i + 1]; its [x_liquid] is the
    equilibrium inversion of its [y_vapor]; its [y_next] is the value at
    [x_liquid] of the operating line its section names; and its [x_next] and
    [y_vapor] are the point the iteration started from: [(x_d, x_d)] for the
    first entry, and [(x_liquid, y_next)] of the preceding entry for every
    later one. *)
Theorem stage_entries_linked
    (r st : Z) (f : option Z) (data : list stage_entry)
    (i : nat) (e : stage_entry) :
  calculate_stages x_d x_b x_feed_intersect y_feed_intersect
    slope_rect intercept_rect slope_strip intercept_strip = Ok (r, st, f, data) ->
  nth_error data i = Some e ->
  Stage e = (Z.of_nat i + 1)%Z /\
  x_from_y_equilibrium (y_vapor e) = Ok (x_liquid e) /\
  y_next e = match SectionTag e with
             | Rectifying => (slope_rect * x_liquid e + intercept_rect)%num
             | Stripping => (slope_strip * x_liquid e + intercept_strip)%num
             end /\
  match i with
  | O => x_next e = x_d /\ y_vapor e = x_d
  | S j => exists e', nth_error data j = Some e' /\
                      x_next e = x_liquid e' /\ y_vapor e = y_next e'
  end.
Proof.
  intros H Hnth. apply calculate_stages_fuel_inv in H.
  destruct H as (s & Hrun & _ & _ & _ & ->).
  apply run_stages_inv in Hrun. destruct Hrun as [[_ Hchain] _].
  exact (stage_chain_entries _ _ _ Hchain i e Hnth).
Qed.

End StagesFacts.

(** *** The stepping on rationals *)

#[global] Instance liquid_of_comp : Proper (Qeq ==> Qeq) liquid_of.
Proof. intros y y' E. unfold liquid_of. now rewrite E. Qed.

#[global] Instance operating_comp (x_fi a b s c : Q) :
  Proper (Qeq ==> Qeq) (operating x_fi a b s c).
Proof.
  intros x x' E. unfold operating. rewrite E.
  destruct (Qle_bool x_fi x'); now rewrite E.
Qed.

Lemma stage_count_comp (x_b x_fi a b s c : Q) (n : nat) :
  forall y y', y == y' ->
  stage_count x_b x_fi a b s c n y = stage_count x_b x_fi a b s c n y'.
Proof.
  induction n as [|n IH]; intros y y' E; [reflexivity|].
  cbn [stage_count]. cbv zeta. rewrite E.
  destruct (Qle_bool (liquid_of y') (x_b * 1.01)); [reflexivity|].
  f_equal. apply IH. now rewrite E.
Qed.

Lemma liquid_of_spec (y : Q) :
  y < 1 -> liquid_of y * (2.4 - 1.4 * y) == y.
Proof. intro H. unfold liquid_of. field. lra. Qed.

Lemma liquid_of_mono (y y' : Q) :
  y <= y' -> y' < 1 -> liquid_of y <= liquid_of y'.
Proof.
  intros Hle Hlt.
  pose proof (liquid_of_spec y ltac:(lra)) as E.
  pose proof (liquid_of_spec y' Hlt) as E'.
  set (x := liquid_of y) in *. set (x' := liquid_of y') in *.
  clearbody x x'.
  (* x (2.4 - 1.4 y) = y and x' (2.4 - 1.4 y') = y' *)
  assert (Hd : 0 < 2.4 - 1.4 * y) by lra.
  assert (Hd' : 0 < 2.4 - 1.4 * y') by lra.
  assert (Hx1 : x' * (2.4 - 1.4 * y') * (2.4 - 1.4 * y)
                - x * (2.4 - 1.4 * y) * (2.4 - 1.4 * y')
                == 2.4 * (y' - y)).
  { rewrite E, E'. ring. }
  assert (Hp : 0 < (2.4 - 1.4 * y') * (2.4 - 1.4 * y)) by nra.
  assert (Hx2 : 0 <= (x' - x) * ((2.4 - 1.4 * y') * (2.4 - 1.4 * y))).
  { setoid_replace ((x' - x) * ((2.4 - 1.4 * y') * (2.4 - 1.4 * y)))
      with (2.4 * (y' - y)) by (rewrite <- Hx1; ring).
    lra. }
  revert Hp Hx2. generalize ((2.4 - 1.4 * y') * (2.4 - 1.4 * y)).
  intros k Hk Hx2. nra.
Qed.

Lemma liquid_of_le (y x_d : Q) :
  0 < x_d -> y <= x_d -> x_d < 1 -> liquid_of y <= x_d.
Proof.
  intros H0 Hle Hlt.
  apply Qle_trans with (liquid_of x_d); [apply liquid_of_mono; lra|].
  pose proof (liquid_of_spec x_d Hlt) as E.
  set (x := liquid_of x_d) in *. clearbody x. nra.
Qed.

(** The feed point not above the curve, read through the inverse map. *)
Lemma liquid_of_feasible (x y : Q) :
  0 < x -> y < 1 -> y * (1 + 1.4 * x) <= 2.4 * x -> liquid_of y <= x.
Proof.
  intros Hx Hy Hf.
  pose proof (liquid_of_spec y Hy) as E.
  set (l := liquid_of y) in *. clearbody l.
  assert (Hd : 0 < 2.4 - 1.4 * y) by lra.
  assert (H : l * (2.4 - 1.4 * y) <= x * (2.4 - 1.4 * y)) by (rewrite E; lra).
  revert Hd H. generalize (2.4 - 1.4 * y). intros k Hk H. nra.
Qed.

Section OperatingFacts.

Variables x_d x_b x_fi a b s c : Q.
Hypothesis Hok : config_ok x_d x_b x_fi a b s c.

Lemma operating_mono (x x' : Q) :
  x_b * 1.01 < x -> x <= x' -> x' <= x_d ->
  operating x_fi a b s c x <= operating x_fi a b s c x'.
Proof.
  destruct Hok as (Hb & Hbd & Hd & Hfi & Ha & Had & Hstrip).
  intros HT Hle Hxd. unfold operating.
  destruct (Qle_bool x_fi x) eqn:E; destruct (Qle_bool x_fi x') eqn:E'.
  - nra.
  - apply Qle_bool_iff in E. apply Qle_bool_false_iff in E'. lra.
  - apply Qle_bool_false_iff in E. apply Qle_bool_iff in E'.
    destruct (Hstrip ltac:(lra)) as (Hs & Hj & _). nra.
  - apply Qle_bool_false_iff in E.
    destruct (Hstrip ltac:(lra)) as (Hs & _). nra.
Qed.

Lemma operating_le (x : Q) :
  x_b * 1.01 < x -> x <= x_d -> operating x_fi a b s c x <= x_d.
Proof.
  destruct Hok as (Hb & Hbd & Hd & Hfi & Ha & Had & Hstrip).
  intros HT Hxd. unfold operating.
  destruct (Qle_bool x_fi x) eqn:E.
  - nra.
  - apply Qle_bool_false_iff in E.
    destruct (Hstrip ltac:(lra)) as (Hs & Hj & _). nra.
Qed.

End OperatingFacts.

(** Lower lines need no more steps. *)
Lemma stage_count_antitone
    (x_d x_b x_fi1 a1 b1 s1 c1 x_fi2 a2 b2 s2 c2 : Q) :
  config_ok x_d x_b x_fi1 a1 b1 s1 c1 ->
  config_ok x_d x_b x_fi2 a2 b2 s2 c2 ->
  (forall x, x_b * 1.01 < x -> x <= x_d ->
             operating x_fi2 a2 b2 s2 c2 x <= operating x_fi1 a1 b1 s1 c1 x) ->
  forall (n : nat) (y1 y2 : Q),
    y2 <= y1 -> y1 <= x_d ->
    (stage_count x_b x_fi2 a2 b2 s2 c2 n y2
     <= stage_count x_b x_fi1 a1 b1 s1 c1 n y1)%nat.
Proof.
  intros Hok1 Hok2 Hle.
  assert (Hb : 0 < x_b) by (destruct Hok1; tauto).
  assert (Hbd : x_b < x_d) by (destruct Hok1; tauto).
  assert (Hd : x_d < 1) by (destruct Hok1; tauto).
  induction n as [|n IH]; intros y1 y2 Hy Hy1; [reflexivity|].
  cbn [stage_count]. cbv zeta.
  assert (Hx : liquid_of y2 <= liquid_of y1)
    by (apply liquid_of_mono; lra).
  assert (Hx1 : liquid_of y1 <= x_d) by (apply liquid_of_le; lra).
  destruct (Qle_bool (liquid_of y2) (x_b * 1.01)) eqn:E2.
  - destruct (Qle_bool (liquid_of y1) (x_b * 1.01)); lia.
  - apply Qle_bool_false_iff in E2.
    destruct (Qle_bool (liquid_of y1) (x_b * 1.01)) eqn:E1.
    + apply Qle_bool_iff in E1. lra.
    + apply le_n_S. apply IH.
      * apply Qle_trans with (operating x_fi2 a2 b2 s2 c2 (liquid_of y1)).
        -- apply (operating_mono x_d x_b _ _ _ _ _ Hok2); lra.
        -- apply Hle; lra.
      * apply Qle_bool_false_iff in E1.
        apply (operating_le x_d x_b _ _ _ _ _ Hok1); lra.
Qed.


(** *** The program's stage count is [stage_count] *)

Lemma stepping_loop_stop (x_b : num) (test : loop_state -> bool)
    (body : loop_state -> result loop_state) (fuel : nat) (s : loop_state) :
  test s && (stage_num s <? 50)%Z = false ->
  stepping_loop x_b test body fuel s = Ok s.
Proof. intro H. destruct fuel; cbn [stepping_loop]; now rewrite H. Qed.

Lemma stepping_loop_step (x_b : num) (test : loop_state -> bool)
    (body : loop_state -> result loop_state) (fuel : nat) (s s' : loop_state) :
  test s && (stage_num s <? 50)%Z = true ->
  body s = Ok s' ->
  stepping_loop x_b test body (S fuel) s =
  if (x_current s' <=? x_b * py 1.01)%num then Ok s'
  else stepping_loop x_b test body fuel s'.
Proof. intros H Hb. cbn [stepping_loop]. now rewrite H, Hb. Qed.

Section RunCount.

Variables x_d x_b x_feed_intersect : num.
Variables slope_rect intercept_rect slope_strip intercept_strip : num.

Let x_fi := val x_feed_intersect.
Let a := val slope_rect.
Let b := val intercept_rect.
Let s := val slope_strip.
Let c := val intercept_strip.
Let T := val x_b * 1.01.

Hypothesis Hok : config_ok (val x_d) (val x_b) x_fi a b s c.

Let count := stage_count (val x_b) x_fi a b s c.
Let rect_loop := rect_loop x_b x_feed_intersect
                   slope_rect intercept_rect slope_strip intercept_strip.
Let strip_loop := strip_loop x_b slope_strip intercept_strip.

Lemma feed_point_le_distillate : a * x_fi + b <= val x_d.
Proof.
  destruct Hok as (Hb & Hbd & Hd & Hfi & Ha & Had & _). nra.
Qed.

Lemma strip_loop_count (n : nat) :
  forall (st : loop_state) (fuel : nat),
    Z.of_nat n = (50 - stage_num st)%Z -> (n <= fuel)%nat ->
    T < val (x_current st) -> val (x_current st) <= x_fi ->
    val (y_current st) <= a * x_fi + b ->
    exists t : loop_state,
      strip_loop fuel st = Ok t /\
      stage_num t = (stage_num st + Z.of_nat (count n (val (y_current st))))%Z.
Proof.
  pose proof feed_point_le_distillate as Hyfi.
  destruct Hok as (Hb & Hbd & Hd & Hfi & Ha & Had & Hstrip).
  induction n as [|n IH]; intros st fuel Hn Hfuel HT Hx Hy.
  - exists st. split; [|cbn; lia].
    apply stepping_loop_stop.
    assert (E : (stage_num st <? 50)%Z = false) by (apply Z.ltb_ge; lia).
    rewrite E. apply andb_false_r.
  - destruct fuel as [|fuel]; [lia|].
    destruct (Hstrip ltac:(unfold T in HT; lra)) as (Hs & Hj & Hfeas).
    destruct (x_from_y_equilibrium_value (y_current st)) as (x_new & Hxn & Hxv);
      [lra|].
    change (val (y_current st) / (2.4 - 1.4 * val (y_current st)))
      with (liquid_of (val (y_current st))) in Hxv.
    set (st' := {| x_current := x_new;
                   y_current := (slope_strip * x_new + intercept_strip)%num;
                   stage_num := stage_num st + 1;
                   stages_rect := stages_rect st;
                   stages_strip := stages_strip st + 1;
                   feed_stage := feed_stage st;
                   stages_data := stages_data st ++
                     [ {| Stage := stage_num st + 1; SectionTag := Stripping;
                          x_liquid := x_new; y_vapor := y_current st;
                          x_next := x_current st;
                          y_next := (slope_strip * x_new + intercept_strip)%num |} ] |}).
    assert (Hbody : strip_body slope_strip intercept_strip st = Ok st').
    { unfold strip_body. rewrite Hxn. reflexivity. }
    assert (Htest : (x_current st >? x_b * py 1.01)%num
                    && (stage_num st <? 50)%Z = true).
    { apply andb_true_intro. split.
      - unfold ngt. apply Qlt_bool_iff. nsimpl. exact HT.
      - apply Z.ltb_lt. lia. }
    unfold strip_loop, McCabeThiele.strip_loop.
    rewrite (stepping_loop_step _ _ _ fuel st st' Htest Hbody).
    unfold count. cbn [stage_count]. cbv zeta. fold count.
    unfold nle. cbn [x_current st'].
    assert (Hbrk : Qle_bool (val x_new) (val (x_b * py 1.01)%num)
                   = Qle_bool (liquid_of (val (y_current st))) (val x_b * 1.01)).
    { nsimpl. now rewrite Hxv. }
    rewrite Hbrk.
    destruct (Qle_bool (liquid_of (val (y_current st))) (val x_b * 1.01)) eqn:E.
    + exists st'. split; [reflexivity|]. unfold st'. cbn [stage_num]. lia.
    + apply Qle_bool_false_iff in E.
      assert (Hxle : val x_new <= x_fi).
      { rewrite Hxv.
        apply Qle_trans with (liquid_of (a * x_fi + b)).
        - apply liquid_of_mono; lra.
        - apply liquid_of_feasible; [unfold T in HT; lra|lra|exact Hfeas]. }
      assert (Hyv : val (y_current st')
                    == operating x_fi a b s c (liquid_of (val (y_current st)))).
      { cbn [y_current st']. nsimpl. fold s c. rewrite Hxv.
        unfold operating.
        destruct (Qle_bool x_fi (liquid_of (val (y_current st)))) eqn:E'.
        - apply Qle_bool_iff in E'.
          assert (Ex : liquid_of (val (y_current st)) == x_fi) by lra.
          rewrite Ex. exact Hj.
        - reflexivity. }
      destruct (IH st' fuel) as (t & Ht & Hnum).
      * cbn [stage_num st']. lia.
      * lia.
      * cbn [x_current st']. unfold T. rewrite Hxv. exact E.
      * exact Hxle.
      * cbn [y_current st']. nsimpl. fold s c. nra.
      * exists t. split; [exact Ht|]. rewrite Hnum.
        cbn [stage_num st']. unfold count.
        rewrite (stage_count_comp _ _ _ _ _ _ n _ _ Hyv).
        rewrite Nat2Z.inj_succ. lia.
Qed.

Lemma rect_body_value (st : loop_state) :
  val (y_current st) <= val x_d ->
  exists st' : loop_state,
    rect_body x_feed_intersect slope_rect intercept_rect
      slope_strip intercept_strip st = Ok st' /\
    stage_num st' = (stage_num st + 1)%Z /\
    val (x_current st') == liquid_of (val (y_current st)) /\
    val (y_current st')
    == operating x_fi a b s c (liquid_of (val (y_current st))).
Proof.
  destruct Hok as (Hb & Hbd & Hd & Hfi & Ha & Had & Hstrip). intro Hy.
  destruct (x_from_y_equilibrium_value (y_current st)) as (x_new & Hxn & Hxv);
    [lra|].
  change (val (y_current st) / (2.4 - 1.4 * val (y_current st)))
    with (liquid_of (val (y_current st))) in Hxv.
  destruct (rect_body x_feed_intersect slope_rect intercept_rect
              slope_strip intercept_strip st) as [st'|h] eqn:Hbody.
  - exists st'. split; [reflexivity|].
    apply rect_body_inv in Hbody.
    destruct Hbody as (x_new' & y_new & section & Hxn' & -> & Hsec).
    rewrite Hxn in Hxn'. injection Hxn' as <-.
    cbn [stage_num x_current y_current].
    split; [reflexivity|]. split; [exact Hxv|].
    unfold operating.
    destruct section; destruct Hsec as [Hcmp ->].
    + fold x_fi in Hcmp. apply Qle_bool_iff in Hcmp. rewrite Hxv in Hcmp.
      rewrite Hcmp. rewrite <- Hxv. nsimpl. reflexivity.
    + fold x_fi in Hcmp. apply Qle_bool_false_iff in Hcmp. rewrite Hxv in Hcmp.
      rewrite Hcmp. rewrite <- Hxv. nsimpl. reflexivity.
  - exfalso. unfold rect_body in Hbody. rewrite Hxn in Hbody.
    cbn [bind] in Hbody.
    destruct (x_new >=? x_feed_intersect)%num; discriminate.
Qed.

Lemma rect_loop_count (n : nat) :
  forall (st : loop_state) (fuel1 fuel2 : nat),
    Z.of_nat n = (50 - stage_num st)%Z ->
    (n <= fuel1)%nat -> (n <= fuel2)%nat ->
    x_fi < val (x_current st) ->
    val (y_current st) <= val x_d ->
    exists t : loop_state,
      (s1 <- rect_loop fuel1 st ;; strip_loop fuel2 (default_feed_stage s1))
      = Ok t /\
      stage_num t = (stage_num st + Z.of_nat (count n (val (y_current st))))%Z.
Proof.
  pose proof feed_point_le_distillate as Hyfi.
  pose proof Hok as (Hb & Hbd & Hd & Hfi & Ha & Had & Hstrip).
  induction n as [|n IH]; intros st fuel1 fuel2 Hn Hf1 Hf2 Hx Hy.
  - assert (E : (stage_num st <? 50)%Z = false) by (apply Z.ltb_ge; lia).
    unfold rect_loop, McCabeThiele.rect_loop.
    rewrite stepping_loop_stop by (rewrite E; apply andb_false_r).
    cbn [bind]. exists (default_feed_stage st). split.
    + apply stepping_loop_stop. rewrite default_feed_stage_num, E.
      apply andb_false_r.
    + rewrite default_feed_stage_num. cbn. lia.
  - destruct fuel1 as [|fuel1]; [lia|].
    destruct (rect_body_value st Hy) as (st' & Hbody & Hnum' & Hxv & Hyv).
    assert (Htest : (x_current st >? x_feed_intersect)%num
                    && (stage_num st <? 50)%Z = true).
    { apply andb_true_intro. split.
      - unfold ngt. apply Qlt_bool_iff. exact Hx.
      - apply Z.ltb_lt. lia. }
    unfold rect_loop, McCabeThiele.rect_loop.
    rewrite (stepping_loop_step _ _ _ fuel1 st st' Htest Hbody).
    unfold count. cbn [stage_count]. cbv zeta. fold count.
    unfold nle.
    assert (Hbrk : Qle_bool (val (x_current st')) (val (x_b * py 1.01)%num)
                   = Qle_bool (liquid_of (val (y_current st))) (val x_b * 1.01)).
    { nsimpl. now rewrite Hxv. }
    rewrite Hbrk.
    assert (Hxd : val (x_current st') <= val x_d).
    { rewrite Hxv. apply liquid_of_le; lra. }
    destruct (Qle_bool (liquid_of (val (y_current st))) (val x_b * 1.01)) eqn:E.
    + (* break: the second loop does not start *)
      cbn [bind]. exists (default_feed_stage st'). split.
      * apply stepping_loop_stop.
        assert (Et : (x_current (default_feed_stage st') >? x_b * py 1.01)%num
                     = false).
        { rewrite default_feed_stage_x. unfold ngt.
          apply Qlt_bool_false_iff. nsimpl. rewrite Hxv.
          now apply Qle_bool_iff in E. }
        now rewrite Et.
      * rewrite default_feed_stage_num, Hnum'. lia.
    + apply Qle_bool_false_iff in E.
      assert (HT' : T < val (x_current st')) by (unfold T; rewrite Hxv; exact E).
      destruct (Qlt_le_dec x_fi (val (x_current st'))) as [Hgt|Hle].
      * (* still in the rectifying loop *)
        destruct (IH st' fuel1 fuel2) as (t & Ht & Hnum); try lia.
        -- exact Hgt.
        -- rewrite Hyv.
           apply (operating_le (val x_d) (val x_b) _ _ _ _ _ Hok).
           ++ fold T. rewrite <- Hxv. exact HT'.
           ++ rewrite <- Hxv. exact Hxd.
        -- exists t. split; [exact Ht|]. rewrite Hnum, Hnum'. unfold count.
           rewrite (stage_count_comp _ _ _ _ _ _ n _ _ Hyv).
           rewrite Nat2Z.inj_succ. lia.
      * (* the rectifying loop ends here; the stripping loop takes over *)
        assert (Estop : stepping_loop x_b
                          (fun s0 => (x_current s0 >? x_feed_intersect)%num)
                          (rect_body x_feed_intersect slope_rect intercept_rect
                             slope_strip intercept_strip) fuel1 st' = Ok st').
        { apply stepping_loop_stop.
          assert (Et : (x_current st' >? x_feed_intersect)%num = false)
            by (unfold ngt; apply Qlt_bool_false_iff; exact Hle).
          now rewrite Et. }
        rewrite Estop. cbn [bind].
        destruct (Hstrip ltac:(fold T; lra)) as (Hs & Hj & Hfeas).
        destruct (strip_loop_count n (default_feed_stage st') fuel2)
          as (t & Ht & Hnum).
        -- rewrite default_feed_stage_num. lia.
        -- lia.
        -- rewrite default_feed_stage_x. exact HT'.
        -- rewrite default_feed_stage_x. exact Hle.
        -- rewrite default_feed_stage_y, Hyv, <- Hxv. unfold operating.
           destruct (Qle_bool x_fi (val (x_current st'))) eqn:E'.
           ++ apply Qle_bool_iff in E'. nra.
           ++ nra.
        -- exists t. split; [exact Ht|].
           rewrite Hnum, default_feed_stage_num, default_feed_stage_y, Hnum'.
           unfold count.
           rewrite (stage_count_comp _ _ _ _ _ _ n _ _ Hyv).
           rewrite Nat2Z.inj_succ. lia.
Qed.

(** A design that can be stepped off is stepped off: [calculate_stages]
    returns, and the number of stages is [stage_count 50] from the distillate
    composition. *)
Lemma run_stages_count (fuel : nat) :
  (50 <= fuel)%nat ->
  exists t : loop_state,
    run_stages x_b x_feed_intersect slope_rect intercept_rect
      slope_strip intercept_strip fuel x_d = Ok t /\
    stage_num t = Z.of_nat (count 50 (val x_d)).
Proof.
  intro Hfuel. unfold run_stages.
  pose proof Hok as (Hb & Hbd & Hd & Hfi & Ha & Had & Hstrip).
  set (s0 := {| x_current := x_d; y_current := x_d; stage_num := 0;
                stages_rect := 0; stages_strip := 0; feed_stage := None;
                stages_data := [] |}).
  destruct (rect_loop_count 50 s0 fuel fuel) as (t & Ht & Hnum);
    try assumption; try (cbn; lia); try (cbn; lra).
  exists t. split; [exact Ht|]. rewrite Hnum. cbn [stage_num s0 y_current]. lia.
Qed.

Lemma calculate_stages_count (y_feed_intersect : num) :
  exists (r st : Z) (f : option Z) (data : list stage_entry),
    calculate_stages x_d x_b x_feed_intersect y_feed_intersect
      slope_rect intercept_rect slope_strip intercept_strip
    = Ok (r, st, f, data) /\
    (r + st)%Z = Z.of_nat (count 50 (val x_d)).
Proof.
  destruct (run_stages_count 50 (Nat.le_refl 50)) as (t & Ht & Hnum).
  exists (stages_rect t), (stages_strip t), (feed_stage t), (stages_data t).
  unfold calculate_stages, calculate_stages_fuel. rewrite Ht. cbn [bind].
  split; [reflexivity|].
  apply run_stages_inv in Ht. destruct Ht as [[(_ & _ & Hsum & _) _] _]. lia.
Qed.

End RunCount.

(** *** The lines of a design *)

(** A point of the equilibrium curve inside the unit square lies above the
    diagonal. *)
Lemma curve_point (xs ys : Q) :
  0 < xs -> xs < 1 -> ys * (1 + 1.4 * xs) == 2.4 * xs -> xs < ys /\ ys < 1.
Proof.
  intros H0 H1 Hc.
  assert (E1 : (ys - xs) * (1 + 1.4 * xs) == 1.4 * xs * (1 - xs)).
  { setoid_replace ((ys - xs) * (1 + 1.4 * xs))
      with (ys * (1 + 1.4 * xs) - xs * (1 + 1.4 * xs)) by ring.
    rewrite Hc. ring. }
  assert (E2 : (1 - ys) * (1 + 1.4 * xs) == 1 - xs).
  { setoid_replace ((1 - ys) * (1 + 1.4 * xs))
      with ((1 + 1.4 * xs) - ys * (1 + 1.4 * xs)) by ring.
    rewrite Hc. ring. }
  assert (Hk : 0 < 1 + 1.4 * xs) by lra.
  assert (Hr : 0 < 1.4 * xs * (1 - xs)) by nra.
  rewrite <- E1 in Hr.
  assert (Hr2 : 0 < 1 - xs) by lra. rewrite <- E2 in Hr2.
  revert Hk Hr Hr2. generalize (1 + 1.4 * xs). intros k Hk Hr Hr2. split; nra.
Qed.

Section Geometry.
Variables x_f x_d x_b q : Q.
Hypothesis Hb : 0 < x_b.
Hypothesis Hbf : x_b < x_f.
Hypothesis Hfd : x_f < x_d.
Hypothesis Hd : x_d < 1.
Hypothesis Hq : 0 < q.

Let lines := design_lines x_f x_d x_b q.

Lemma z_pos u : 0 < u -> u <= 1 -> 0 < 1 + (q - 1) * u.
Proof. intros. nra. Qed.

Lemma lines_xfi_lt u x_fi a b s c : lines u x_fi a b s c -> x_fi < x_d.
Proof.
  intros (Hu0 & Hu1 & Ha & Hbb & Hx & Hs & Hc).
  pose proof (z_pos u Hu0 Hu1) as Hz.
  assert (E : (x_d - x_fi) * (1 + (q - 1) * u) == x_d - x_f).
  { setoid_replace ((x_d - x_fi) * (1 + (q - 1) * u))
      with (x_d * (1 + (q - 1) * u) - x_fi * (1 + (q - 1) * u)) by ring.
    rewrite Hx. ring. }
  revert Hz E. generalize (1 + (q - 1) * u). intros z Hz E. nra.
Qed.

Lemma lines_yfi_ge u x_fi a b s c : lines u x_fi a b s c -> x_fi <= a * x_fi + b /\ a * x_fi + b <= x_d.
Proof.
  intros HL. pose proof (lines_xfi_lt _ _ _ _ _ _ HL) as Hlt.
  destruct HL as (Hu0 & Hu1 & Ha & Hbb & Hx & Hs & Hc).
  rewrite Ha, Hbb. split; nra.
Qed.

Lemma lines_slope u x_fi a b s c : lines u x_fi a b s c -> x_b < x_fi ->
  1 <= s /\ s * x_fi + c == a * x_fi + b.
Proof.
  intros HL Hgt. pose proof (lines_yfi_ge _ _ _ _ _ _ HL) as [Hy1 Hy2].
  destruct HL as (Hu0 & Hu1 & Ha & Hbb & Hx & Hs & Hc).
  assert (Hs' := Hs ltac:(lra)).
  split.
  - revert Hy1 Hs'. generalize (a * x_fi + b). intros y Hy Hs'. nra.
  - rewrite Hc. setoid_replace (a * x_fi + b) with ((a * x_fi + b - x_b) + x_b) by ring.
    rewrite <- Hs'. ring.
Qed.

Lemma lines_above_b u x_fi a b s c : lines u x_fi a b s c ->
  (x_fi - x_b) * (1 + (q - 1) * u) == (x_f - x_b) + u * ((q - 1) * (x_d - x_b)).
Proof.
  intros (Hu0 & Hu1 & Ha & Hbb & Hx & Hs & Hc).
  setoid_replace ((x_fi - x_b) * (1 + (q - 1) * u))
    with (x_fi * (1 + (q - 1) * u) - x_b * (1 + (q - 1) * u)) by ring.
  rewrite Hx. ring.
Qed.

Lemma lines_slope_eq u x_fi a b s c : lines u x_fi a b s c -> x_b < x_fi ->
  (s - 1) * ((x_f - x_b) + u * ((q - 1) * (x_d - x_b))) == u * (x_d - x_f).
Proof.
  intros HL Hgt.
  pose proof (lines_above_b _ _ _ _ _ _ HL) as HN.
  destruct HL as (Hu0 & Hu1 & Ha & Hbb & Hx & Hs & Hc).
  assert (Hs' := Hs ltac:(lra)).
  rewrite <- HN.
  setoid_replace ((s - 1) * ((x_fi - x_b) * (1 + (q - 1) * u)))
    with ((s * (x_fi - x_b) - (x_fi - x_b)) * (1 + (q - 1) * u)) by ring.
  rewrite Hs', Ha, Hbb.
  setoid_replace (((1 - u) * x_fi + u * x_d - x_b - (x_fi - x_b)) * (1 + (q - 1) * u))
    with (u * (x_d * (1 + (q - 1) * u) - x_fi * (1 + (q - 1) * u))) by ring.
  rewrite Hx. ring.
Qed.

Lemma lines_slope_le u1 x_fi1 a1 b1 s1 c1 u2 x_fi2 a2 b2 s2 c2 :
  lines u1 x_fi1 a1 b1 s1 c1 -> lines u2 x_fi2 a2 b2 s2 c2 -> u2 <= u1 ->
  x_b < x_fi1 -> x_b < x_fi2 -> s2 <= s1.
Proof.
  intros HL1 HL2 Hu H1 H2.
  pose proof (lines_slope_eq _ _ _ _ _ _ HL1 H1) as E1.
  pose proof (lines_slope_eq _ _ _ _ _ _ HL2 H2) as E2.
  pose proof (lines_above_b _ _ _ _ _ _ HL1) as N1.
  pose proof (lines_above_b _ _ _ _ _ _ HL2) as N2.
  destruct HL1 as (Hu10 & Hu11 & _). destruct HL2 as (Hu20 & Hu21 & _).
  pose proof (z_pos u1 Hu10 Hu11) as Hz1. pose proof (z_pos u2 Hu20 Hu21) as Hz2.
  set (A := x_f - x_b) in *. set (B := (q - 1) * (x_d - x_b)) in *.
  set (D := x_d - x_f) in *.
  assert (HA : 0 < A) by (unfold A; lra). assert (HD : 0 < D) by (unfold D; lra).
  assert (HN1 : 0 < A + u1 * B).
  { rewrite <- N1. apply Qmult_lt_0_compat; lra. }
  assert (HN2 : 0 < A + u2 * B).
  { rewrite <- N2. apply Qmult_lt_0_compat; lra. }
  clearbody A B D.
  assert (E : (s1 - s2) * ((A + u1 * B) * (A + u2 * B)) == D * A * (u1 - u2)).
  { setoid_replace ((s1 - s2) * ((A + u1 * B) * (A + u2 * B)))
      with (((s1 - 1) * (A + u1 * B)) * (A + u2 * B) - ((s2 - 1) * (A + u2 * B)) * (A + u1 * B)) by ring.
    rewrite E1, E2. ring. }
  assert (HP : 0 < (A + u1 * B) * (A + u2 * B)) by (apply Qmult_lt_0_compat; lra).
  assert (HR : 0 <= D * A * (u1 - u2)).
  { apply Qmult_le_0_compat; [apply Qmult_le_0_compat|]; lra. }
  rewrite <- E in HR. revert HP HR. generalize ((A + u1 * B) * (A + u2 * B)). intros k Hk HR. nra.
Qed.

Lemma lines_xfi_eq u x_fi a b s c : lines u x_fi a b s c ->
  (x_d - x_fi) * (1 + (q - 1) * u) == x_d - x_f /\
  (x_fi - x_f) * (1 + (q - 1) * u) == (q - 1) * u * (x_d - x_f).
Proof.
  intros (Hu0 & Hu1 & Ha & Hbb & Hx & Hs & Hc). split.
  - setoid_replace ((x_d - x_fi) * (1 + (q - 1) * u))
      with (x_d * (1 + (q - 1) * u) - x_fi * (1 + (q - 1) * u)) by ring.
    rewrite Hx. ring.
  - setoid_replace ((x_fi - x_f) * (1 + (q - 1) * u))
      with (x_fi * (1 + (q - 1) * u) - x_f * (1 + (q - 1) * u)) by ring.
    rewrite Hx. ring.
Qed.

Lemma lines_order u1 x_fi1 a1 b1 s1 c1 u2 x_fi2 a2 b2 s2 c2 :
  lines u1 x_fi1 a1 b1 s1 c1 -> lines u2 x_fi2 a2 b2 s2 c2 -> u2 <= u1 ->
  x_fi2 < x_fi1 -> x_f < x_fi2.
Proof.
  intros HL1 HL2 Hu Hlt.
  destruct (lines_xfi_eq _ _ _ _ _ _ HL1) as [E1 F1].
  destruct (lines_xfi_eq _ _ _ _ _ _ HL2) as [E2 F2].
  pose proof (lines_xfi_lt _ _ _ _ _ _ HL1) as L1.
  pose proof (lines_xfi_lt _ _ _ _ _ _ HL2) as L2.
  destruct HL1 as (Hu10 & Hu11 & _). destruct HL2 as (Hu20 & Hu21 & _).
  pose proof (z_pos u1 Hu10 Hu11) as Hz1. pose proof (z_pos u2 Hu20 Hu21) as Hz2.
  destruct (Qlt_le_dec 0 (q - 1)) as [Hp|Hp].
  - assert (0 < (x_fi2 - x_f) * (1 + (q - 1) * u2)).
    { rewrite F2. apply Qmult_lt_0_compat; [apply Qmult_lt_0_compat|]; lra. }
    revert Hz2 H. generalize (1 + (q - 1) * u2). intros z Hz H. nra.
  - exfalso.
    assert (Hz : 1 + (q - 1) * u1 <= 1 + (q - 1) * u2) by nra.
    assert (E : (x_d - x_fi2) * (1 + (q - 1) * u2) == (x_d - x_fi1) * (1 + (q - 1) * u1))
      by (rewrite E1, E2; reflexivity).
    revert Hz1 Hz2 Hz E. generalize (1 + (q - 1) * u1) (1 + (q - 1) * u2).
    intros z1 z2 Hz1 Hz2 Hz E. nra.
Qed.

Lemma lines_compare u1 x_fi1 a1 b1 s1 c1 u2 x_fi2 a2 b2 s2 c2 :
  lines u1 x_fi1 a1 b1 s1 c1 -> lines u2 x_fi2 a2 b2 s2 c2 -> u2 <= u1 ->
  forall x, x_b * 1.01 < x -> x <= x_d ->
  operating x_fi2 a2 b2 s2 c2 x <= operating x_fi1 a1 b1 s1 c1 x.
Proof.
  intros HL1 HL2 Hu x HT Hx.
  assert (Hxb : x_b < x) by lra.
  unfold operating.
  destruct (Qle_bool x_fi2 x) eqn:T2; destruct (Qle_bool x_fi1 x) eqn:T1.
  - destruct HL1 as (Hu10 & Hu11 & Ha1 & Hb1 & _).
    destruct HL2 as (Hu20 & Hu21 & Ha2 & Hb2 & _).
    rewrite Ha1, Hb1, Ha2, Hb2. nra.
  - apply Qle_bool_iff in T2. apply Qle_bool_false_iff in T1.
    assert (H2 : x_b < x_fi2).
    { pose proof (lines_order _ _ _ _ _ _ _ _ _ _ _ _ HL1 HL2 Hu ltac:(lra)). lra. }
    assert (H1 : x_b < x_fi1) by lra.
    pose proof (lines_slope_le _ _ _ _ _ _ _ _ _ _ _ _ HL1 HL2 Hu H1 H2) as Hs.
    destruct (lines_slope _ _ _ _ _ _ HL2 H2) as [Hs2 Hj2].
    destruct HL1 as (Hu10 & Hu11 & Ha1 & Hb1 & _ & _ & Hc1).
    destruct HL2 as (Hu20 & Hu21 & Ha2 & Hb2 & _ & _ & Hc2).
    apply Qle_trans with (s2 * x + c2).
    + assert (a2 <= 1) by lra. nra.
    + rewrite Hc1, Hc2. nra.
  - apply Qle_bool_false_iff in T2. apply Qle_bool_iff in T1.
    assert (H2 : x_b < x_fi2) by lra.
    destruct (lines_slope _ _ _ _ _ _ HL2 H2) as [Hs2 Hj2].
    destruct HL1 as (Hu10 & Hu11 & Ha1 & Hb1 & _).
    destruct HL2 as (Hu20 & Hu21 & Ha2 & Hb2 & _).
    apply Qle_trans with (a2 * x + b2).
    + assert (a2 <= 1) by lra. nra.
    + rewrite Ha1, Hb1, Ha2, Hb2. nra.
  - apply Qle_bool_false_iff in T2. apply Qle_bool_false_iff in T1.
    assert (H2 : x_b < x_fi2) by lra. assert (H1 : x_b < x_fi1) by lra.
    pose proof (lines_slope_le _ _ _ _ _ _ _ _ _ _ _ _ HL1 HL2 Hu H1 H2) as Hs.
    destruct HL1 as (_ & _ & _ & _ & _ & _ & Hc1).
    destruct HL2 as (_ & _ & _ & _ & _ & _ & Hc2).
    rewrite Hc1, Hc2. nra.
Qed.

Lemma lines_config_ok u x_fi a b s c :
  lines u x_fi a b s c ->
  (x_b * 1.01 < x_fi -> (a * x_fi + b) * (1 + 1.4 * x_fi) <= 2.4 * x_fi) ->
  config_ok x_d x_b x_fi a b s c.
Proof.
  intros HL Hfeas.
  pose proof (lines_xfi_lt _ _ _ _ _ _ HL) as Hlt.
  unfold config_ok. split; [exact Hb|]. split; [lra|]. split; [exact Hd|].
  split; [exact Hlt|].
  assert (Ha : 0 <= a /\ a * x_d + b == x_d).
  { destruct HL as (Hu0 & Hu1 & Ha & Hbb & _). rewrite Ha, Hbb. split; [lra|ring]. }
  split; [tauto|]. split; [tauto|].
  intro HT. destruct (lines_slope _ _ _ _ _ _ HL ltac:(lra)) as [Hs Hj].
  split; [lra|]. split; [exact Hj|]. exact (Hfeas HT).
Qed.

Lemma lines_on_feed u x_fi a b s c : lines u x_fi a b s c ->
  (q - 1) * (a * x_fi + b) == q * x_fi - x_f.
Proof.
  intros (Hu0 & Hu1 & Ha & Hbb & Hx & Hs & Hc).
  rewrite Ha, Hbb.
  setoid_replace (q * x_fi - x_f)
    with (x_fi * (1 + (q - 1) * u) - x_f + (q - 1) * (1 - u) * x_fi) by ring.
  rewrite Hx. ring.
Qed.

Lemma lines_feasible u x_fi a b s c xs ys :
  lines u x_fi a b s c ->
  0 < xs -> xs < 1 ->
  ys * (1 + 1.4 * xs) == 2.4 * xs ->
  (q - 1) * ys == q * xs - x_f ->
  (x_d < ys \/ u * (x_d - xs) <= ys - xs) ->
  (a * x_fi + b) * (1 + 1.4 * x_fi) <= 2.4 * x_fi.
Proof.
  intros HL H0 H1 Hc Hfeed Hu.
  destruct (curve_point xs ys H0 H1 Hc) as [Hxy Hy1].
  pose proof (lines_on_feed _ _ _ _ _ _ HL) as Hon.
  destruct (lines_yfi_ge _ _ _ _ _ _ HL) as [Hy_ge Hy_le].
  pose proof (lines_xfi_lt _ _ _ _ _ _ HL) as Hlt.
  destruct (lines_xfi_eq _ _ _ _ _ _ HL) as [_ Fx].
  pose proof HL as (Hu0 & Hu1 & Ha & Hbb & Hx & _).
  pose proof (z_pos u Hu0 Hu1) as Hz.
  set (y_fi := a * x_fi + b) in *.
  (* the feed point is not above the point on the curve *)
  assert (Hyy : y_fi <= ys).
  { destruct Hu as [Hu|Hu]; [lra|].
    assert (E : (1 + (q - 1) * u) * (y_fi - ys)
                == q * (xs + u * (x_d - xs) - ys)).
    { unfold y_fi. rewrite Ha, Hbb.
      setoid_replace ((1 + (q - 1) * u) * ((1 - u) * x_fi + u * x_d - ys))
        with ((1 - u) * (x_fi * (1 + (q - 1) * u))
              + (1 + (q - 1) * u) * u * x_d
              - q * ys + (1 - u) * ((q - 1) * ys)) by ring.
      rewrite Hx, Hfeed. ring. }
    assert (Hw : q * (xs + u * (x_d - xs) - ys) <= 0) by nra.
    rewrite <- E in Hw.
    revert Hz Hw. generalize (1 + (q - 1) * u). intros z Hz Hw. nra. }
  assert (Hl : (q - 1) * (ys - y_fi) == q * (xs - x_fi)).
  { setoid_replace ((q - 1) * (ys - y_fi))
      with ((q - 1) * ys - (q - 1) * y_fi) by ring.
    rewrite Hon, Hfeed. ring. }
  assert (Hdiag : ys - x_f == q * (ys - xs)).
  { setoid_replace (q * (ys - xs)) with (ys + ((q - 1) * ys - q * xs)) by ring.
    rewrite Hfeed. ring. }
  assert (Hk : 0 <= q * (1 + 1.4 * xs) - (q - 1) * (2.4 - 1.4 * y_fi)).
  { destruct (Qlt_le_dec 0 (q - 1)) as [Hp|Hp].
    2:{ assert (Hn1 : 0 <= (1 - q) * (2.4 - 1.4 * y_fi))
          by (apply Qmult_le_0_compat; lra).
        assert (Hn2 : 0 <= q * (1 + 1.4 * xs))
          by (apply Qmult_le_0_compat; lra).
        lra. }
    assert (Hxf : x_f <= x_fi).
    { assert (0 <= (x_fi - x_f) * (1 + (q - 1) * u)).
      { rewrite Fx. apply Qmult_le_0_compat; [apply Qmult_le_0_compat|]; lra. }
      revert Hz H. generalize (1 + (q - 1) * u). intros z Hz H. nra. }
    assert (HK0 : 0 < q * (1 + 1.4 * xs) - (q - 1) * (2.4 - 1.4 * x_f)).
    { assert (E : (ys - x_f) * (q * (1 + 1.4 * xs) - (q - 1) * (2.4 - 1.4 * x_f))
                  == q * (1.4 * x_f * (1 - x_f))).
      { setoid_replace ((ys - x_f) * (q * (1 + 1.4 * xs) - (q - 1) * (2.4 - 1.4 * x_f)))
          with (q * (ys * (1 + 1.4 * xs)) - q * x_f * (1 + 1.4 * xs)
                - ((q - 1) * ys) * (2.4 - 1.4 * x_f)
                + (q - 1) * x_f * (2.4 - 1.4 * x_f)) by ring.
        rewrite Hc, Hfeed. ring. }
      assert (Hpos : 0 < q * (1.4 * x_f * (1 - x_f))).
      { apply Qmult_lt_0_compat; [exact Hq|]. clear - Hb Hbf Hfd Hd. nra. }
      rewrite <- E in Hpos.
      assert (Hdy : 0 < ys - x_f)
        by (rewrite Hdiag; apply Qmult_lt_0_compat; lra).
      revert Hdy Hpos. generalize (ys - x_f). intros dy Hdy Hpos.
      generalize dependent (q * (1 + 1.4 * xs) - (q - 1) * (2.4 - 1.4 * x_f)).
      intros K0 HK. clear - Hdy HK. nra. }
    assert (Hn : 0 <= (q - 1) * (y_fi - x_f))
      by (apply Qmult_le_0_compat; lra).
    lra. }
  assert (E : q * (2.4 * x_fi - y_fi * (1 + 1.4 * x_fi))
              == (ys - y_fi) * (q * (1 + 1.4 * xs) - (q - 1) * (2.4 - 1.4 * y_fi))).
  { setoid_replace (q * (2.4 * x_fi - y_fi * (1 + 1.4 * x_fi)))
      with ((ys - y_fi) * (q * (1 + 1.4 * xs) - (q - 1) * (2.4 - 1.4 * y_fi))
            - q * (ys * (1 + 1.4 * xs) - 2.4 * xs)
            + ((q - 1) * (ys - y_fi) - q * (xs - x_fi)) * (2.4 - 1.4 * y_fi)) by ring.
    rewrite Hc, Hl. ring. }
  assert (Hprod : 0 <= q * (2.4 * x_fi - y_fi * (1 + 1.4 * x_fi))).
  { rewrite E. apply Qmult_le_0_compat; lra. }
  assert (Hgoal : 0 <= 2.4 * x_fi - y_fi * (1 + 1.4 * x_fi)).
  { revert Hprod. generalize (2.4 * x_fi - y_fi * (1 + 1.4 * x_fi)).
    intros w Hw. clear - Hq Hw. nra. }
  lra.
Qed.
End Geometry.

Section WithSolver.

Variable hybrd : (num -> result num) -> Q -> Q.

(** The steps a returned design went through. *)
Lemma calculate_design_inv (F x_f x_d x_b q R_factor : num) (d : design) :
  calculate_design hybrd F x_f x_d x_b q R_factor = Ok d ->
  material_balance F x_f x_d x_b = Ok (design_D d, design_B d) /\
  feed_equilibrium_point hybrd q x_f
    = Ok (design_x_intersect d, design_y_intersect d) /\
  minimum_reflux x_d (design_x_intersect d) (design_y_intersect d)
    = Ok (design_R_min d) /\
  design_R d = (R_factor * design_R_min d)%num /\
  (design_R d / (design_R d + py 1))%num = Ok (design_slope_rect d) /\
  (x_d / (design_R d + py 1))%num = Ok (design_intercept_rect d) /\
  feed_operating_point hybrd q x_f (design_slope_rect d) (design_intercept_rect d)
    = Ok (design_x_feed_intersect d, design_y_feed_intersect d) /\
  stripping_slope x_b (design_x_feed_intersect d) (design_y_feed_intersect d)
    = Ok (design_slope_strip d) /\
  design_intercept_strip d = (x_b - design_slope_strip d * x_b)%num /\
  calculate_stages x_d x_b (design_x_feed_intersect d) (design_y_feed_intersect d)
    (design_slope_rect d) (design_intercept_rect d)
    (design_slope_strip d) (design_intercept_strip d)
    = Ok (design_stages_rect d, design_stages_strip d,
          design_optimal_feed d, design_stage_data d) /\
  design_total_stages d = (design_stages_rect d + design_stages_strip d)%Z.
Proof.
  unfold calculate_design. intro H.
  bind_inv H. destruct a as [D B].
  bind_inv H. destruct a as [x_intersect y_intersect].
  bind_inv H. rename a into R_min.
  bind_inv H. rename a into slope_rect.
  bind_inv H. rename a into intercept_rect.
  bind_inv H. destruct a as [x_feed_intersect y_feed_intersect].
  bind_inv H. rename a into slope_strip.
  bind_inv H. destruct a as [[[stages_rect stages_strip] optimal_feed] stage_data].
  injection H as <-. cbn.
  repeat (split; [assumption || reflexivity|]). reflexivity.
Qed.


(** The cap on a design: [total_stages = stages_rect + stages_strip <= 50]
    and at most 50 entries in [stage_data]. *)
Lemma calculate_design_stage_cap (F x_f x_d x_b q R_factor : num) (d : design) :
  calculate_design hybrd F x_f x_d x_b q R_factor = Ok d ->
  design_total_stages d = (design_stages_rect d + design_stages_strip d)%Z /\
  (design_total_stages d <= 50)%Z /\
  (length (design_stage_data d) <= 50)%nat.
Proof.
  intro H. apply calculate_design_inv in H.
  destruct H as (_ & _ & _ & _ & _ & _ & _ & _ & _ & Hst & Htot).
  apply calculate_stages_bounds in Hst. rewrite Htot. lia.
Qed.

(** *** Minimum reflux *)

Lemma minimum_reflux_value (x_d x_intersect y_intersect : num) :
  ~ val y_intersect == val x_intersect ->
  exists R_min,
    minimum_reflux x_d x_intersect y_intersect = Ok R_min /\
    (0 <= (val x_d - val y_intersect) / (val y_intersect - val x_intersect) ->
     val R_min == (val x_d - val y_intersect) / (val y_intersect - val x_intersect)) /\
    ((val x_d - val y_intersect) / (val y_intersect - val x_intersect) < 0 ->
     R_min = py 0.5).
Proof.
  intro Hne. unfold minimum_reflux. rewrite ndiv_ok.
  - cbn [bind]. eexists. split; [reflexivity|]. unfold nlt. nsimpl. split.
    + intro Hpos.
      destruct (Qlt_bool _ _) eqn:E.
      * apply Qlt_bool_iff in E. lra.
      * nsimpl. reflexivity.
    + intro Hneg.
      destruct (Qlt_bool _ _) eqn:E; [reflexivity|].
      apply Qlt_bool_false_iff in E. lra.
  - nsimpl. intro E. apply Hne. lra.
Qed.

Lemma minimum_reflux_inv (x_d x_intersect y_intersect R_min : num) :
  minimum_reflux x_d x_intersect y_intersect = Ok R_min ->
  ~ val y_intersect == val x_intersect /\
  (0 <= (val x_d - val y_intersect) / (val y_intersect - val x_intersect) ->
   val R_min == (val x_d - val y_intersect) / (val y_intersect - val x_intersect)) /\
  ((val x_d - val y_intersect) / (val y_intersect - val x_intersect) < 0 ->
   R_min = py 0.5).
Proof.
  intro H.
  assert (Hne : ~ val y_intersect == val x_intersect).
  { unfold minimum_reflux in H. bind_inv H. apply ndiv_inv in Hstep.
    destruct Hstep as [Hnz _]. nsimpl. intro E. apply Hnz. lra. }
  split; [exact Hne|].
  destruct (minimum_reflux_value x_d x_intersect y_intersect Hne)
    as (R' & HR' & Hv).
  rewrite H in HR'. injection HR' as <-. exact Hv.
Qed.

Lemma minimum_reflux_nonneg (x_d x_intersect y_intersect R_min : num) :
  minimum_reflux x_d x_intersect y_intersect = Ok R_min -> 0 <= val R_min.
Proof.
  intro H. apply minimum_reflux_inv in H. destruct H as (_ & Hpos & Hneg).
  destruct (Qlt_le_dec
              ((val x_d - val y_intersect) / (val y_intersect - val x_intersect)) 0)
    as [Hlt|Hle].
  - rewrite (Hneg Hlt). simpl. lra.
  - rewrite (Hpos Hle). exact Hle.
Qed.

(** C4.  In every design, with [xs = x_intersect] and [ys = y_intersect]
    the point found on the equilibrium curve, [R_min] is
    [(x_d - ys) / (ys - xs)] when that quotient is not negative and the
    constant 0.5 when it is negative, and [R = R_factor * R_min]. *)
Theorem minimum_reflux_rule (F x_f x_d x_b q R_factor : num) (d : design) :
  calculate_design hybrd F x_f x_d x_b q R_factor = Ok d ->
  let xs := val (design_x_intersect d) in
  let ys := val (design_y_intersect d) in
  ~ ys == xs /\
  (0 <= (val x_d - ys) / (ys - xs) ->
   val (design_R_min d) == (val x_d - ys) / (ys - xs)) /\
  ((val x_d - ys) / (ys - xs) < 0 -> design_R_min d = py 0.5) /\
  design_R d = (R_factor * design_R_min d)%num /\
  val (design_R d) == val R_factor * val (design_R_min d).
Proof.
  intro H. apply calculate_design_inv in H.
  destruct H as (_ & _ & Hmin & HR & _).
  apply minimum_reflux_inv in Hmin. destruct Hmin as (Hne & Hpos & Hneg).
  cbv zeta. split; [exact Hne|]. split; [exact Hpos|]. split; [exact Hneg|].
  split; [exact HR|]. rewrite HR. apply val_nmul.
Qed.

(** *** The feed line *)

Lemma feed_line_value (q x_f x : num) :
  ~ val q == 1 ->
  exists y, feed_line q x_f x = Ok y /\
            val y == val q / (val q - 1) * val x - val x_f / (val q - 1).
Proof.
  intro Hq. unfold feed_line.
  assert (Hnz : ~ val (q - py 1)%num == 0) by (nsimpl; lra).
  rewrite !ndiv_ok by exact Hnz. cbn [bind].
  eexists. split; [reflexivity|]. nsimpl. reflexivity.
Qed.

Lemma feed_line_singular (q x_f : Q) (x : num) :
  q == 1 -> feed_line (py q) (py x_f) x = Stop ZeroDivisionError.
Proof.
  intro Hq. unfold feed_line, ndiv. nsimpl.
  assert (Hz : Qeq_bool (q - 1) 0 = true) by (apply Qeq_bool_iff; lra).
  now rewrite Hz.
Qed.

Lemma feed_eq_intersection_singular (q x_f : Q) (x : num) :
  q == 1 -> feed_eq_intersection (py q) (py x_f) x = Stop ZeroDivisionError.
Proof.
  intro Hq. unfold feed_eq_intersection.
  now rewrite feed_line_singular.
Qed.

Lemma find_feed_intersection_singular (q x_f : Q) (slope_rect intercept_rect x : num) :
  q == 1 ->
  find_feed_intersection (py q) (py x_f) slope_rect intercept_rect x
  = Stop ZeroDivisionError.
Proof.
  intro Hq. unfold find_feed_intersection.
  now rewrite feed_line_singular.
Qed.

(** At [q = 1] the first handler runs: the point on the equilibrium curve is
    taken at [x_f]. *)
Lemma feed_equilibrium_point_singular (q x_f : Q) :
  q == 1 ->
  feed_equilibrium_point hybrd (py q) (py x_f)
  = (y_intersect <- equilibrium_curve (py x_f) ;; Ok (py x_f, y_intersect)).
Proof.
  intro Hq. unfold feed_equilibrium_point, fsolve.
  now rewrite feed_eq_intersection_singular.
Qed.

(** At [q = 1] the second handler runs: the feed point is taken on the
    rectifying line at [x_f]. *)
Lemma feed_operating_point_singular (q x_f : Q) (slope_rect intercept_rect : num) :
  q == 1 ->
  feed_operating_point hybrd (py q) (py x_f) slope_rect intercept_rect
  = Ok (py x_f, (slope_rect * py x_f + intercept_rect)%num).
Proof.
  intro Hq. unfold feed_operating_point, fsolve.
  now rewrite find_feed_intersection_singular.
Qed.

(** Away from [q = 1] the residual functions raise nothing, so [fsolve]
    returns what the solver ends with. *)
Lemma feed_line_no_exception (q x_f x : num) (h : halt) :
  ~ val q == 1 -> feed_line q x_f x <> Stop h.
Proof.
  intros Hq E. destruct (feed_line_value q x_f x Hq) as (y & Hy & _).
  congruence.
Qed.

(** Neither residual function raises at one point and not at another: the
    only exception comes from [q - 1], so the first evaluation inside
    [fsolve] decides whether the call raises. *)
Lemma residuals_raise_only_at_q1 (q x_f : Q) (slope_rect intercept_rect x : num)
    (h : halt) :
  is_exception h = true ->
  feed_eq_intersection (py q) (py x_f) (np (val x)) = Stop h \/
  find_feed_intersection (py q) (py x_f) slope_rect intercept_rect (np (val x))
  = Stop h ->
  q == 1 /\ h = ZeroDivisionError.
Proof.
  intros Hh H.
  destruct (Qeq_dec q 1) as [Hq|Hq].
  - split; [exact Hq|].
    rewrite (feed_eq_intersection_singular q x_f _ Hq) in H.
    rewrite (find_feed_intersection_singular q x_f _ _ _ Hq) in H.
    destruct H as [H|H]; now injection H.
  - exfalso.
    destruct (feed_line_value (py q) (py x_f) (np (val x)) Hq) as (y & Hy & _).
    unfold feed_eq_intersection, find_feed_intersection in H.
    rewrite Hy in H. cbn [bind] in H.
    destruct H as [H|H]; [|discriminate].
    unfold equilibrium_curve, ndiv in H. cbn [kind np py nadd nsub nmul kjoin] in H.
    destruct (Qeq_bool _ 0); cbn [bind] in H; [|discriminate].
    injection H as <-. discriminate.
Qed.

(** *** From a design to its lines *)

Lemma feed_equilibrium_point_inv (q x_f : Q) (xs ys : num) :
  feed_equilibrium_point hybrd (py q) (py x_f) = Ok (xs, ys) ->
  equilibrium_curve xs = Ok ys /\ (q == 1 -> xs = py x_f).
Proof.
  intro H. split.
  - unfold feed_equilibrium_point, try_except in H.
    destruct (x_intersect <- fsolve hybrd (feed_eq_intersection (py q) (py x_f)) (py x_f) ;;
              y_intersect <- equilibrium_curve x_intersect ;;
              Ok (x_intersect, y_intersect)) as [[x y]|h] eqn:E.
    + injection H as <- <-. bind_inv E. bind_inv E. now injection E as <- <-.
    + destruct (is_exception h); [|discriminate].
      bind_inv H. now injection H as <- <-.
  - intro Hq. rewrite (feed_equilibrium_point_singular q x_f Hq) in H.
    bind_inv H. now injection H as <- _.
Qed.

Lemma feed_operating_point_inv (q x_f : Q) (slope_rect intercept_rect : num)
    (x_fi y_fi : num) :
  feed_operating_point hybrd (py q) (py x_f) slope_rect intercept_rect
  = Ok (x_fi, y_fi) ->
  y_fi = (slope_rect * x_fi + intercept_rect)%num /\ (q == 1 -> x_fi = py x_f).
Proof.
  intro H. split.
  - unfold feed_operating_point, try_except in H.
    destruct (x_feed_intersect <-
                fsolve hybrd (find_feed_intersection (py q) (py x_f)
                                slope_rect intercept_rect) (py x_f) ;;
              Ok (x_feed_intersect,
                  (slope_rect * x_feed_intersect + intercept_rect)%num))
      as [[x y]|h] eqn:E.
    + injection H as <- <-. bind_inv E. now injection E as <- <-.
    + destruct (is_exception h); [|discriminate]. now injection H as <- <-.
  - intro Hq. rewrite (feed_operating_point_singular q x_f _ _ Hq) in H.
    now injection H as <- _.
Qed.

(** A zero of the first residual is a point of the feed line on the curve;
    a zero of the second is a point of the feed line on the rectifying line. *)
Lemma root_feed_eq_intersection (q x_f : Q) (xs ys : num) :
  ~ q == 1 -> equilibrium_curve xs = Ok ys ->
  root_of (feed_eq_intersection (py q) (py x_f)) xs ->
  (q - 1) * val ys == q * val xs - x_f.
Proof.
  intros Hq Heq (r & Hr & Hz).
  destruct (feed_line_value (py q) (py x_f) xs Hq) as (yf & Hyf & Hyfv).
  unfold feed_eq_intersection in Hr. rewrite Hyf, Heq in Hr.
  cbn [bind] in Hr. injection Hr as <-. nsimpl.
  assert (E : val ys == val yf) by lra. rewrite E, Hyfv. field. lra.
Qed.

Lemma root_find_feed_intersection (q x_f : Q)
    (slope_rect intercept_rect x_fi : num) :
  ~ q == 1 ->
  root_of (find_feed_intersection (py q) (py x_f) slope_rect intercept_rect) x_fi ->
  (q - 1) * (val slope_rect * val x_fi + val intercept_rect)
  == q * val x_fi - x_f.
Proof.
  intros Hq (r & Hr & Hz).
  destruct (feed_line_value (py q) (py x_f) x_fi Hq) as (yf & Hyf & Hyfv).
  unfold find_feed_intersection in Hr. rewrite Hyf in Hr.
  cbn [bind] in Hr. injection Hr as <-. nsimpl.
  assert (E : val slope_rect * val x_fi + val intercept_rect == val yf) by lra.
  rewrite E, Hyfv. field. lra.
Qed.

Lemma stripping_slope_inv (x_b x_fi y_fi s : num) :
  stripping_slope x_b x_fi y_fi = Ok s ->
  ~ val x_fi == val x_b ->
  val s * (val x_fi - val x_b) == val y_fi - val x_b.
Proof.
  unfold stripping_slope, nne. intros H Hne.
  apply Qeq_bool_false_iff in Hne. rewrite Hne in H. cbn [negb] in H.
  apply ndiv_inv in H. destruct H as [Hnz ->]. nsimpl.
  field_simplify_eq; [ring | exact Hnz].
Qed.

Lemma stripping_slope_total (x_b x_fi y_fi : num) :
  exists s, stripping_slope x_b x_fi y_fi = Ok s.
Proof.
  unfold stripping_slope, nne.
  destruct (Qeq_bool (val x_fi) (val x_b)) eqn:E; cbn [negb].
  - eauto.
  - apply Qeq_bool_false_iff in E. rewrite ndiv_ok; [eauto|].
    nsimpl. intro H. apply E. lra.
Qed.

(** The values one design computation goes through, once the point on the
    equilibrium curve is known, describe lines that can be stepped off. *)
Lemma lines_of_steps (x_f x_d x_b q f : Q)
    (xs ys R_min slope_rect intercept_rect x_fi s : num) :
  0 < x_b -> x_b < x_f -> x_f < x_d -> x_d < 1 -> 0 < q -> 1 <= f ->
  equilibrium_curve xs = Ok ys ->
  0 < val xs -> val xs < 1 ->
  (q - 1) * val ys == q * val xs - x_f ->
  minimum_reflux (py x_d) xs ys = Ok R_min ->
  ((py f * R_min) / (py f * R_min + py 1))%num = Ok slope_rect ->
  (py x_d / (py f * R_min + py 1))%num = Ok intercept_rect ->
  (q - 1) * (val slope_rect * val x_fi + val intercept_rect)
  == q * val x_fi - x_f ->
  stripping_slope (py x_b) x_fi (slope_rect * x_fi + intercept_rect)%num = Ok s ->
  let R := val (py f * R_min)%num in
  0 <= val R_min /\ R == f * val R_min /\
  design_lines x_f x_d x_b q (/ (R + 1))
    (val x_fi) (val slope_rect) (val intercept_rect)
    (val s) (val (py x_b - s * py x_b)%num) /\
  config_ok x_d x_b
    (val x_fi) (val slope_rect) (val intercept_rect)
    (val s) (val (py x_b - s * py x_b)%num).
Proof.
  intros Hb Hbf Hfd Hd Hq Hf Hcurve Hxs0 Hxs1 Hfeed Hmin Hslope Hint Hon Hstrip R.
  assert (HRm : 0 <= val R_min) by (eapply minimum_reflux_nonneg; eauto).
  assert (HR : R == f * val R_min) by (unfold R; nsimpl; reflexivity).
  assert (HR0 : 0 <= R) by (rewrite HR; apply Qmult_le_0_compat; lra).
  set (u := / (R + 1)).
  assert (Hu : u * (R + 1) == 1) by (unfold u; field; lra).
  assert (Hu0 : 0 < u) by (unfold u; apply Qinv_lt_0_compat; lra).
  assert (Hu1 : u <= 1).
  { revert Hu Hu0 HR0. generalize R. clearbody u. clear. intros R Hu Hu0 HR0. nra. }
  apply ndiv_inv in Hslope. destruct Hslope as [_ Hslope].
  apply ndiv_inv in Hint. destruct Hint as [_ Hint].
  clearbody R.
  assert (Ha : val slope_rect == 1 - u).
  { rewrite Hslope. nsimpl. rewrite <- HR. unfold u. field. lra. }
  assert (Hbb : val intercept_rect == u * x_d).
  { rewrite Hint. nsimpl. rewrite <- HR. unfold u. field. lra. }
  apply equilibrium_curve_inv in Hcurve. destruct Hcurve as [Hden Hys].
  assert (Hc : val ys * (1 + 1.4 * val xs) == 2.4 * val xs).
  { rewrite Hys. field. exact Hden. }
  destruct (curve_point (val xs) (val ys) Hxs0 Hxs1 Hc) as [Hxy Hy1].
  assert (HL : design_lines x_f x_d x_b q u
                 (val x_fi) (val slope_rect) (val intercept_rect)
                 (val s) (val (py x_b - s * py x_b)%num)).
  { unfold design_lines.
    split; [exact Hu0|]. split; [exact Hu1|]. split; [exact Ha|].
    split; [exact Hbb|]. split; [|split].
    - rewrite Ha, Hbb in Hon.
      setoid_replace (val x_fi * (1 + (q - 1) * u))
        with (q * val x_fi - (q - 1) * ((1 - u) * val x_fi + u * x_d)
              + (q - 1) * u * x_d) by ring.
      rewrite Hon. ring.
    - intro Hne.
      pose proof (stripping_slope_inv _ _ _ _ Hstrip Hne) as E.
      nsimpl. exact E.
    - nsimpl. reflexivity. }
  split; [exact HRm|]. split; [exact HR|]. split; [exact HL|].
  apply (lines_config_ok x_f x_d x_b q Hb Hbf Hfd Hd Hq _ _ _ _ _ _ HL).
  intros _.
  apply (lines_feasible x_f x_d x_b q Hb Hbf Hfd Hd Hq _ _ _ _ _ _
           (val xs) (val ys) HL Hxs0 Hxs1 Hc Hfeed).
  apply minimum_reflux_inv in Hmin. destruct Hmin as (_ & Hpos & Hneg).
  cbn [val py] in Hpos, Hneg.
  destruct (Qlt_le_dec x_d (val ys)) as [Hlt|Hge]; [left; exact Hlt|right].
  assert (Hr0 : 0 <= (x_d - val ys) / (val ys - val xs)).
  { apply Qle_shift_div_l; lra. }
  specialize (Hpos Hr0).
  assert (Hr1 : val R_min * (val ys - val xs) == x_d - val ys).
  { rewrite Hpos. field. lra. }
  assert (Hge' : (R + 1) * (val ys - val xs) >= x_d - val xs).
  { rewrite HR.
    assert (0 <= (f - 1) * (val R_min * (val ys - val xs))).
    { apply Qmult_le_0_compat; [lra|]. rewrite Hr1. lra. }
    nra. }
  assert (E : u * ((R + 1) * (val ys - val xs)) == val ys - val xs).
  { setoid_replace (u * ((R + 1) * (val ys - val xs)))
      with ((u * (R + 1)) * (val ys - val xs)) by ring.
    rewrite Hu. ring. }
  rewrite <- E.
  revert Hge'. generalize ((R + 1) * (val ys - val xs)). intros k Hk.
  clear - Hu0 Hk. nra.
Qed.

(** The lines of a returned design, and its stage count. *)
Lemma design_geometry (F x_f x_d x_b q f : Q) (d : design) :
  0 < x_b -> x_b < x_f -> x_f < x_d -> x_d < 1 -> 0 < q -> 1 <= f ->
  calculate_design hybrd (py F) (py x_f) (py x_d) (py x_b) (py q) (py f) = Ok d ->
  solver_exact (py q) (py x_f) d ->
  0 <= val (design_R_min d) /\
  val (design_R d) == f * val (design_R_min d) /\
  design_lines x_f x_d x_b q (/ (val (design_R d) + 1))
    (val (design_x_feed_intersect d))
    (val (design_slope_rect d)) (val (design_intercept_rect d))
    (val (design_slope_strip d)) (val (design_intercept_strip d)) /\
  config_ok x_d x_b
    (val (design_x_feed_intersect d))
    (val (design_slope_rect d)) (val (design_intercept_rect d))
    (val (design_slope_strip d)) (val (design_intercept_strip d)) /\
  design_total_stages d =
  Z.of_nat (stage_count x_b
              (val (design_x_feed_intersect d))
              (val (design_slope_rect d)) (val (design_intercept_rect d))
              (val (design_slope_strip d)) (val (design_intercept_strip d))
              50 x_d).
Proof.
  intros Hb Hbf Hfd Hd Hq Hf Hdes Hexact.
  apply calculate_design_inv in Hdes.
  destruct Hdes as (_ & Hfe & Hmin & HR & Hslope & Hint & Hfo & Hss & Hc & Hst & Htot).
  apply feed_equilibrium_point_inv in Hfe. destruct Hfe as [Hcurve Hxs1].
  apply feed_operating_point_inv in Hfo. destruct Hfo as [Hyfi Hxfi1].
  rewrite Hyfi in Hss. rewrite HR in Hslope, Hint.
  assert (Hroot : 0 < val (design_x_intersect d) /\
                  val (design_x_intersect d) < 1 /\
                  (q - 1) * val (design_y_intersect d)
                  == q * val (design_x_intersect d) - x_f /\
                  (q - 1) * (val (design_slope_rect d)
                             * val (design_x_feed_intersect d)
                             + val (design_intercept_rect d))
                  == q * val (design_x_feed_intersect d) - x_f).
  { destruct (Qeq_dec q 1) as [Hq1|Hq1].
    - rewrite (Hxs1 Hq1), (Hxfi1 Hq1). cbn [val py].
      split; [lra|]. split; [lra|]. split; rewrite Hq1; ring.
    - destruct (Hexact Hq1) as (Hr1 & H0 & H1 & Hr2).
      split; [exact H0|]. split; [exact H1|]. split.
      + exact (root_feed_eq_intersection q x_f _ _ Hq1 Hcurve Hr1).
      + exact (root_find_feed_intersection q x_f _ _ _ Hq1 Hr2). }
  destruct Hroot as (H0 & H1 & Hfeed & Hon).
  destruct (lines_of_steps x_f x_d x_b q f _ _ _ _ _ _ _
              Hb Hbf Hfd Hd Hq Hf Hcurve H0 H1 Hfeed Hmin Hslope Hint Hon Hss)
    as (HRm & HRv & HL & Hok).
  rewrite <- Hc in HL, Hok. rewrite <- HR in HRv, HL.
  split; [exact HRm|]. split; [exact HRv|]. split; [exact HL|].
  split; [exact Hok|].
  destruct (calculate_stages_count (py x_d) (py x_b) _ _ _ _ _ Hok
              (design_y_feed_intersect d)) as (r & st & fs & data & Hrun & Hsum).
  rewrite Hrun in Hst. injection Hst as E1 E2 _ _.
  rewrite Htot, <- E1, <- E2. exact Hsum.
Qed.

(** The minimum reflux does not depend on the reflux factor. *)
Lemma design_R_min_fixed (F x_f x_d x_b q f1 f2 : num) (d1 d2 : design) :
  calculate_design hybrd F x_f x_d x_b q f1 = Ok d1 ->
  calculate_design hybrd F x_f x_d x_b q f2 = Ok d2 ->
  design_R_min d1 = design_R_min d2.
Proof.
  intros H1 H2.
  apply calculate_design_inv in H1. destruct H1 as (_ & Hfe1 & Hmin1 & _).
  apply calculate_design_inv in H2. destruct H2 as (_ & Hfe2 & Hmin2 & _).
  rewrite Hfe1 in Hfe2. injection Hfe2 as E1 E2.
  rewrite E1, E2 in Hmin1. rewrite Hmin1 in Hmin2. now injection Hmin2.
Qed.

(** The lines of a design whose second solve ended on the feed line,
    whatever the first solve gave. *)
Lemma lines_of_design (x_f x_d x_b q f : Q)
    (R_min slope_rect intercept_rect x_fi s : num) :
  1 <= f -> 0 <= val R_min ->
  ((py f * R_min) / (py f * R_min + py 1))%num = Ok slope_rect ->
  (py x_d / (py f * R_min + py 1))%num = Ok intercept_rect ->
  (q - 1) * (val slope_rect * val x_fi + val intercept_rect)
  == q * val x_fi - x_f ->
  stripping_slope (py x_b) x_fi (slope_rect * x_fi + intercept_rect)%num = Ok s ->
  let R := val (py f * R_min)%num in
  R == f * val R_min /\
  design_lines x_f x_d x_b q (/ (R + 1))
    (val x_fi) (val slope_rect) (val intercept_rect)
    (val s) (val (py x_b - s * py x_b)%num).
Proof.
  intros Hf HRm Hslope Hint Hon Hstrip R.
  assert (HR : R == f * val R_min) by (unfold R; nsimpl; reflexivity).
  assert (HR0 : 0 <= R) by (rewrite HR; apply Qmult_le_0_compat; lra).
  set (u := / (R + 1)).
  assert (Hu : u * (R + 1) == 1) by (unfold u; field; lra).
  assert (Hu0 : 0 < u) by (unfold u; apply Qinv_lt_0_compat; lra).
  assert (Hu1 : u <= 1).
  { revert Hu Hu0 HR0. generalize R. clearbody u. clear. intros R Hu Hu0 HR0. nra. }
  apply ndiv_inv in Hslope. destruct Hslope as [_ Hslope].
  apply ndiv_inv in Hint. destruct Hint as [_ Hint].
  clearbody R.
  assert (Ha : val slope_rect == 1 - u).
  { rewrite Hslope. nsimpl. rewrite <- HR. unfold u. field. lra. }
  assert (Hbb : val intercept_rect == u * x_d).
  { rewrite Hint. nsimpl. rewrite <- HR. unfold u. field. lra. }
  split; [exact HR|].
  unfold design_lines.
  split; [exact Hu0|]. split; [exact Hu1|]. split; [exact Ha|].
  split; [exact Hbb|]. split; [|split].
  - rewrite Ha, Hbb in Hon.
    setoid_replace (val x_fi * (1 + (q - 1) * u))
      with (q * val x_fi - (q - 1) * ((1 - u) * val x_fi + u * x_d)
            + (q - 1) * u * x_d) by ring.
    rewrite Hon. ring.
  - intro Hne.
    pose proof (stripping_slope_inv _ _ _ _ Hstrip Hne) as E.
    nsimpl. exact E.
  - nsimpl. reflexivity.
Qed.

(** The lines of a returned design and its stage count, from
    [solver_adequate] alone. *)
Lemma design_geometry_adequate (F x_f x_d x_b q f : Q) (d : design) :
  0 < x_b -> x_b < x_f -> x_f < x_d -> x_d < 1 -> 0 < q -> 1 <= f ->
  calculate_design hybrd (py F) (py x_f) (py x_d) (py x_b) (py q) (py f) = Ok d ->
  solver_adequate (py q) (py x_f) (py x_b) d ->
  0 <= val (design_R_min d) /\
  val (design_R d) == f * val (design_R_min d) /\
  design_lines x_f x_d x_b q (/ (val (design_R d) + 1))
    (val (design_x_feed_intersect d))
    (val (design_slope_rect d)) (val (design_intercept_rect d))
    (val (design_slope_strip d)) (val (design_intercept_strip d)) /\
  config_ok x_d x_b
    (val (design_x_feed_intersect d))
    (val (design_slope_rect d)) (val (design_intercept_rect d))
    (val (design_slope_strip d)) (val (design_intercept_strip d)) /\
  design_total_stages d =
  Z.of_nat (stage_count x_b
              (val (design_x_feed_intersect d))
              (val (design_slope_rect d)) (val (design_intercept_rect d))
              (val (design_slope_strip d)) (val (design_intercept_strip d))
              50 x_d).
Proof.
  intros Hb Hbf Hfd Hd Hq Hf Hdes Had.
  destruct (Qeq_dec q 1) as [Hq1|Hq1].
  { apply (design_geometry F x_f x_d x_b q f d); try assumption.
    intro Hne. exfalso. apply Hne. exact Hq1. }
  destruct (Had Hq1) as [Hroot Hfeas].
  apply calculate_design_inv in Hdes.
  destruct Hdes as (_ & _ & Hmin & HR & Hslope & Hint & Hfo & Hss & Hc & Hst & Htot).
  apply feed_operating_point_inv in Hfo. destruct Hfo as [Hyfi _].
  rewrite Hyfi in Hss, Hfeas. rewrite HR in Hslope, Hint.
  pose proof (minimum_reflux_nonneg _ _ _ _ Hmin) as HRm.
  pose proof (root_find_feed_intersection q x_f _ _ _ Hq1 Hroot) as Hon.
  destruct (lines_of_design x_f x_d x_b q f _ _ _ _ _
              Hf HRm Hslope Hint Hon Hss) as (HRv & HL).
  rewrite <- Hc in HL. rewrite <- HR in HRv, HL.
  assert (Hok : config_ok x_d x_b
                  (val (design_x_feed_intersect d))
                  (val (design_slope_rect d)) (val (design_intercept_rect d))
                  (val (design_slope_strip d)) (val (design_intercept_strip d))).
  { apply (lines_config_ok x_f x_d x_b q Hb Hbf Hfd Hd Hq _ _ _ _ _ _ HL).
    intro HT. specialize (Hfeas HT). nsimpl. exact Hfeas. }
  split; [exact HRm|]. split; [exact HRv|]. split; [exact HL|].
  split; [exact Hok|].
  destruct (calculate_stages_count (py x_d) (py x_b) _ _ _ _ _ Hok
              (design_y_feed_intersect d)) as (r & st & fs & data & Hrun & Hsum).
  rewrite Hrun in Hst. injection Hst as E1 E2 _ _.
  rewrite Htot, <- E1, <- E2. exact Hsum.
Qed.

(** Solves that end on zeros are adequate: with the first solve on the
    intersection of the feed line and the equilibrium curve, the feed point
    of every reflux factor of at least 1 is not above the curve. *)
Lemma solver_exact_adequate (F x_f x_d x_b q f : Q) (d : design) :
  0 < x_b -> x_b < x_f -> x_f < x_d -> x_d < 1 -> 0 < q -> 1 <= f ->
  calculate_design hybrd (py F) (py x_f) (py x_d) (py x_b) (py q) (py f) = Ok d ->
  solver_exact (py q) (py x_f) d ->
  solver_adequate (py q) (py x_f) (py x_b) d.
Proof.
  intros Hb Hbf Hfd Hd Hq Hf Hdes Hex Hq1.
  destruct (Hex Hq1) as (_ & _ & _ & Hr2). split; [exact Hr2|].
  intro HT.
  destruct (design_geometry F x_f x_d x_b q f d Hb Hbf Hfd Hd Hq Hf Hdes Hex)
    as (_ & _ & _ & Hok & _).
  destruct Hok as (_ & _ & _ & _ & _ & _ & Hstrip).
  destruct (Hstrip HT) as (_ & _ & Hfeas).
  apply calculate_design_inv in Hdes.
  destruct Hdes as (_ & _ & _ & _ & _ & _ & Hfo & _).
  apply feed_operating_point_inv in Hfo. destruct Hfo as [Hyfi _].
  rewrite Hyfi. nsimpl. exact Hfeas.
Qed.

(** C8.  With the other inputs fixed and valid ([0 < x_b < x_f < x_d < 1],
    [q > 0]), a larger reflux factor never gives more stages: for
    [1.1 <= f1 <= f2] the design for [f2] has [total_stages] at most that
    of the design for [f1].  Of [fsolve] this takes, for [q <> 1], that the
    second call ended on the zero of its linear residual function and that
    the feed point of either design is not above the equilibrium curve; the
    first call need not end on a zero of its residual function. *)
Theorem total_stages_antitone (F x_f x_d x_b q f1 f2 : Q) (d1 d2 : design) :
  0 < x_b -> x_b < x_f -> x_f < x_d -> x_d < 1 -> 0 < q ->
  1.1 <= f1 -> f1 <= f2 ->
  calculate_design hybrd (py F) (py x_f) (py x_d) (py x_b) (py q) (py f1) = Ok d1 ->
  calculate_design hybrd (py F) (py x_f) (py x_d) (py x_b) (py q) (py f2) = Ok d2 ->
  solver_adequate (py q) (py x_f) (py x_b) d1 ->
  solver_adequate (py q) (py x_f) (py x_b) d2 ->
  (design_total_stages d2 <= design_total_stages d1)%Z.
Proof.
  intros Hb Hbf Hfd Hd Hq Hf1 Hf12 Hd1 Hd2 He1 He2.
  pose proof (design_R_min_fixed _ _ _ _ _ _ _ _ _ Hd1 Hd2) as HRmin.
  destruct (design_geometry_adequate F x_f x_d x_b q f1 d1 Hb Hbf Hfd Hd Hq
              ltac:(lra) Hd1 He1) as (HRm1 & HR1 & HL1 & Hok1 & Hn1).
  destruct (design_geometry_adequate F x_f x_d x_b q f2 d2 Hb Hbf Hfd Hd Hq
              ltac:(lra) Hd2 He2) as (HRm2 & HR2 & HL2 & Hok2 & Hn2).
  rewrite Hn1, Hn2. apply inj_le.
  apply (stage_count_antitone x_d x_b _ _ _ _ _ _ _ _ _ _ Hok1 Hok2);
    [|lra|lra].
  apply (lines_compare x_f x_d x_b q Hb Hbf Hfd Hd Hq _ _ _ _ _ _ _ _ _ _ _ _ HL1 HL2).
  (* 1 / (R2 + 1) <= 1 / (R1 + 1) *)
  assert (HR12 : val (design_R d1) <= val (design_R d2)).
  { rewrite HR1, HR2, <- HRmin. apply Qmult_le_compat_r; lra. }
  assert (HR1' : 0 <= val (design_R d1)).
  { rewrite HR1. apply Qmult_le_0_compat; lra. }
  revert HR12 HR1'. generalize (val (design_R d1)) (val (design_R d2)).
  intros R1 R2 HR12 HR1'.
  apply Qle_shift_inv_l; [lra|].
  setoid_replace (/ (R2 + 1) * (R1 + 1)) with ((R1 + 1) / (R2 + 1)) by (field; lra).
  apply Qle_shift_div_r; lra.
Qed.

(** *** The design at [q = 1] *)

(** At [q = 1], with valid compositions and a reflux factor of at least 1,
    every step of the design computation is defined. *)
Lemma calculate_design_at_q1 (F x_f x_d x_b q f : Q) :
  0 < x_b -> x_b < x_f -> x_f < x_d -> x_d < 1 -> 1 <= f -> q == 1 ->
  exists d : design,
    calculate_design hybrd (py F) (py x_f) (py x_d) (py x_b) (py q) (py f) = Ok d /\
    design_x_intersect d = py x_f /\
    equilibrium_curve (py x_f) = Ok (design_y_intersect d) /\
    design_x_feed_intersect d = py x_f /\
    design_y_feed_intersect d
    = (design_slope_rect d * py x_f + design_intercept_rect d)%num.
Proof.
  intros Hb Hbf Hfd Hd Hf Hq1.
  assert (Hq : 0 < q) by (rewrite Hq1; lra).
  destruct (material_balance_total (py F) (py x_f) (py x_d) (py x_b))
    as (D & B & Hmb); [cbn [val py]; lra|].
  destruct (equilibrium_curve_value (py x_f)) as (ys & Hys & Hysv);
    [cbn [val py]; lra|].
  cbn [val py] in Hysv.
  assert (Hc : val ys * (1 + 1.4 * x_f) == 2.4 * x_f).
  { rewrite Hysv. field. lra. }
  destruct (curve_point x_f (val ys) ltac:(lra) ltac:(lra) Hc) as [Hxy Hy1].
  destruct (minimum_reflux_value (py x_d) (py x_f) ys) as (R_min & Hmin & _);
    [cbn [val py]; lra|].
  assert (HRm : 0 <= val R_min) by (eapply minimum_reflux_nonneg; eauto).
  set (R := (py f * R_min)%num).
  assert (HR0 : 0 <= val R).
  { unfold R. nsimpl. apply Qmult_le_0_compat; lra. }
  assert (Hden : ~ val (R + py 1)%num == 0) by (nsimpl; lra).
  pose proof (ndiv_ok R (R + py 1)%num Hden) as Hslope.
  pose proof (ndiv_ok (py x_d) (R + py 1)%num Hden) as Hint.
  set (slope_rect := {| kind := kjoin (kind R) (kind (R + py 1)%num);
                        val := Qred (val R / val (R + py 1)%num) |}) in *.
  set (intercept_rect := {| kind := kjoin (kind (py x_d)) (kind (R + py 1)%num);
                            val := Qred (val (py x_d) / val (R + py 1)%num) |}) in *.
  destruct (stripping_slope_total (py x_b) (py x_f)
              (slope_rect * py x_f + intercept_rect)%num) as (slope_strip & Hss).
  assert (Hfeed : (q - 1) * val ys == q * val (py x_f) - x_f)
    by (cbn [val py]; rewrite Hq1; ring).
  assert (Hon : (q - 1) * (val slope_rect * val (py x_f) + val intercept_rect)
                == q * val (py x_f) - x_f)
    by (cbn [val py]; rewrite Hq1; ring).
  destruct (lines_of_steps x_f x_d x_b q f (py x_f) ys R_min
              slope_rect intercept_rect (py x_f) slope_strip
              Hb Hbf Hfd Hd Hq Hf Hys ltac:(cbn [val py]; lra)
              ltac:(cbn [val py]; lra) Hfeed Hmin Hslope Hint Hon Hss)
    as (_ & _ & _ & Hok).
  destruct (calculate_stages_count (py x_d) (py x_b) _ _ _ _ _ Hok
              (slope_rect * py x_f + intercept_rect)%num)
    as (r & st & fs & data & Hrun & _).
  unfold calculate_design.
  rewrite Hmb. cbn [bind].
  rewrite (feed_equilibrium_point_singular q x_f Hq1), Hys. cbn [bind].
  rewrite Hmin. cbn [bind]. fold R.
  rewrite Hslope. cbn [bind]. rewrite Hint. cbn [bind].
  rewrite (feed_operating_point_singular q x_f _ _ Hq1). cbn [bind].
  rewrite Hss. cbn [bind]. rewrite Hrun. cbn [bind].
  eexists. split; [reflexivity|].
  cbn [design_x_intersect design_y_intersect design_x_feed_intersect
       design_y_feed_intersect design_slope_rect design_intercept_rect].
  auto.
Qed.

(** C6, as the program has it.  The feed-line expression
    [q/(q-1) * x - x_f/(q-1)] is evaluated without a test on [q]: for
    [q <> 1] it has that value, and for [q = 1] both residual functions
    raise [ZeroDivisionError] at every [x].  The design computation is
    total at [q = 1] all the same: the exception is caught by the
    [try]/[except] around each [fsolve], the point on the equilibrium curve
    and the feed point are both taken at [x_f], and for valid compositions
    and a reflux factor of at least 1 a design is returned. *)
Theorem feed_line_division (F x_f x_d x_b q f : Q) :
  (~ q == 1 ->
   forall x : num,
     exists y : num,
       feed_line (py q) (py x_f) x = Ok y /\
       val y == q / (q - 1) * val x - x_f / (q - 1)) /\
  (q == 1 ->
   (forall x : num,
       feed_eq_intersection (py q) (py x_f) x = Stop ZeroDivisionError) /\
   (forall slope_rect intercept_rect x : num,
       find_feed_intersection (py q) (py x_f) slope_rect intercept_rect x
       = Stop ZeroDivisionError) /\
   (0 < x_b -> x_b < x_f -> x_f < x_d -> x_d < 1 -> 1 <= f ->
    exists d : design,
      calculate_design hybrd (py F) (py x_f) (py x_d) (py x_b) (py q) (py f)
      = Ok d /\
      design_x_intersect d = py x_f /\
      equilibrium_curve (py x_f) = Ok (design_y_intersect d) /\
      design_x_feed_intersect d = py x_f /\
      design_y_feed_intersect d
      = (design_slope_rect d * py x_f + design_intercept_rect d)%num)).
Proof.
  split.
  - intros Hq x. exact (feed_line_value (py q) (py x_f) x Hq).
  - intro Hq. split; [|split].
    + intro x. now apply feed_eq_intersection_singular.
    + intros slope_rect intercept_rect x.
      now apply find_feed_intersection_singular.
    + intros Hb Hbf Hfd Hd Hf.
      now apply calculate_design_at_q1.
Qed.

End WithSolver.

(** *** The statements on concrete inputs *)

Lemma calculate_stages_terminates_witness :
  (50 <= 60)%nat /\
  calculate_stages_fuel 60 (py 0.95) (py 0.05) (py 0.5) (py 0.68)
    (py 0.6) (py 0.38) (py 1.4) (py (-0.02))
  = calculate_stages (py 0.95) (py 0.05) (py 0.5) (py 0.68)
      (py 0.6) (py 0.38) (py 1.4) (py (-0.02)) /\
  calculate_stages_fuel 60 (py 0.95) (py 0.05) (py 0.5) (py 0.68)
    (py 0.6) (py 0.38) (py 1.4) (py (-0.02))
  <> Stop OutOfFuel.
Proof.
  assert (H : (50 <= 60)%nat) by lia.
  split; [exact H|].
  destruct (calculate_stages_terminates (py 0.95) (py 0.05) (py 0.5) (py 0.68)
              (py 0.6) (py 0.38) (py 1.4) (py (-0.02)) 60 H) as (H1 & H2 & _).
  split; assumption.
Defined.

(** The first entry of a run: [x_next] is the distillate composition the
    run starts from, not the liquid composition just computed. *)
Lemma stage_x_next_is_not_x_liquid :
  exists (r st : Z) (f : option Z) (e : stage_entry) (rest : list stage_entry),
    calculate_stages (py 0.95) (py 0.05) (py 0.5) (py 0.68)
      (py 0.6) (py 0.38) (py 1.4) (py (-0.02)) = Ok (r, st, f, e :: rest) /\
    val (x_liquid e) == 95 # 107 /\
    val (x_next e) == 0.95 /\
    ~ val (x_next e) == val (x_liquid e).
Proof.
  do 5 eexists. split; [vm_compute; reflexivity|].
  split; [reflexivity|]. split; [reflexivity|].
  cbn [x_next x_liquid val py]. intro E. vm_compute in E. discriminate.
Qed.

Lemma stage_entries_linked_witness :
  exists (r st : Z) (f : option Z) (data : list stage_entry) (e e' : stage_entry),
    calculate_stages (py 0.95) (py 0.05) (py 0.5) (py 0.68)
      (py 0.6) (py 0.38) (py 1.4) (py (-0.02)) = Ok (r, st, f, data) /\
    nth_error data 1 = Some e /\
    nth_error data 0 = Some e' /\
    Stage e = 2%Z /\
    x_from_y_equilibrium (y_vapor e) = Ok (x_liquid e) /\
    x_next e = x_liquid e' /\ y_vapor e = y_next e'.
Proof.
  do 6 eexists.
  match goal with
  | |- ?c = Ok (?r, ?st, ?f, ?data) /\ _ =>
      assert (Hrun : c = Ok (r, st, f, data)) by (vm_compute; reflexivity)
  end.
  split; [exact Hrun|].
  match goal with
  | |- ?n = Some ?e /\ _ =>
      assert (Hnth : n = Some e) by (vm_compute; reflexivity)
  end.
  split; [exact Hnth|].
  destruct (stage_entries_linked _ _ _ _ _ _ _ _ _ _ _ _ 1%nat _ Hrun Hnth)
    as (Hst & Hinv & _ & e0 & He0 & Hx & Hy).
  vm_compute in He0. injection He0 as <-.
  split; [vm_compute; reflexivity|].
  split; [exact Hst|]. split; [exact Hinv|]. split; [exact Hx|exact Hy].
Defined.

(** At [q = 1] a design is returned. *)
Lemma design_returned_at_q1 :
  exists d : design,
    calculate_design seed_solver
      (py 100) (py 0.5) (py 0.95) (py 0.05) (py 1) (py 1.25) = Ok d /\
    design_total_stages d = 15%Z.
Proof.
  eexists. split; [vm_compute; reflexivity|]. reflexivity.
Qed.

Lemma feed_line_division_witness :
  (~ 1.167 == 1 /\
   exists y : num,
     feed_line (py 1.167) (py 0.5) (py 0.5) = Ok y /\
     val y == 1.167 / (1.167 - 1) * 0.5 - 0.5 / (1.167 - 1)) /\
  (1 == 1 /\ 0 < 0.05 /\ 0.05 < 0.5 /\ 0.5 < 0.95 /\ 0.95 < 1 /\ 1 <= 1.25 /\
   feed_eq_intersection (py 1) (py 0.5) (py 0.5) = Stop ZeroDivisionError /\
   exists d : design,
     calculate_design seed_solver
       (py 100) (py 0.5) (py 0.95) (py 0.05) (py 1) (py 1.25) = Ok d /\
     design_x_intersect d = py 0.5 /\
     design_x_feed_intersect d = py 0.5).
Proof.
  split.
  - assert (Hq : ~ 1.167 == 1) by lra.
    split; [exact Hq|].
    exact (proj1 (feed_line_division seed_solver 100 0.5 0.95 0.05 1.167 1.25)
             Hq (py 0.5)).
  - assert (Hq : 1 == 1) by reflexivity.
    assert (Hb : 0 < 0.05) by lra. assert (Hbf : 0.05 < 0.5) by lra.
    assert (Hfd : 0.5 < 0.95) by lra. assert (Hd : 0.95 < 1) by lra.
    assert (Hf : 1 <= 1.25) by lra.
    destruct (proj2 (feed_line_division seed_solver 100 0.5 0.95 0.05 1 1.25) Hq)
      as (H1 & _ & H3).
    destruct (H3 Hb Hbf Hfd Hd Hf) as (d & Hdes & Hx & _ & Hxf & _).
    repeat (split; [assumption|]).
    split; [exact (H1 (py 0.5))|].
    exists d. auto.
Defined.

(** The default inputs, with one Newton step standing for each solve: the
    first solve ends near the zero of its residual function, not on it. *)
Lemma total_stages_antitone_witness :
  exists d1 d2 : design,
    calculate_design (newton 1)
      (py 100) (py 0.5) (py 0.95) (py 0.05) (py 1.167) (py 1.25) = Ok d1 /\
    calculate_design (newton 1)
      (py 100) (py 0.5) (py 0.95) (py 0.05) (py 1.167) (py 1.5) = Ok d2 /\
    ~ root_of (feed_eq_intersection (py 1.167) (py 0.5)) (design_x_intersect d1) /\
    solver_adequate (py 1.167) (py 0.5) (py 0.05) d1 /\
    solver_adequate (py 1.167) (py 0.5) (py 0.05) d2 /\
    design_total_stages d1 = 15%Z /\
    design_total_stages d2 = 13%Z /\
    (design_total_stages d2 <= design_total_stages d1)%Z.
Proof.
  do 2 eexists.
  match goal with
  | |- ?c = Ok ?d /\ _ =>
      assert (Hd1 : c = Ok d) by (vm_compute; reflexivity)
  end.
  split; [exact Hd1|].
  match goal with
  | |- ?c = Ok ?d /\ _ =>
      assert (Hd2 : c = Ok d) by (vm_compute; reflexivity)
  end.
  split; [exact Hd2|].
  split.
  { intros (r & Hr & Hz). vm_compute in Hr. injection Hr as <-.
    vm_compute in Hz. discriminate. }
  match goal with
  | |- ?e /\ _ =>
      assert (He1 : e)
  end.
  { intros _. split.
    - eexists. split; [vm_compute; reflexivity|reflexivity].
    - intros _. vm_compute. discriminate. }
  split; [exact He1|].
  match goal with
  | |- ?e /\ _ =>
      assert (He2 : e)
  end.
  { intros _. split.
    - eexists. split; [vm_compute; reflexivity|reflexivity].
    - intros _. vm_compute. discriminate. }
  split; [exact He2|].
  split; [vm_compute; reflexivity|]. split; [vm_compute; reflexivity|].
  apply (total_stages_antitone (newton 1) 100 0.5 0.95 0.05 1.167 1.25 1.5
           _ _ ltac:(lra) ltac:(lra) ltac:(lra) ltac:(lra) ltac:(lra)
           ltac:(lra) ltac:(lra) Hd1 Hd2 He1 He2).
Defined.

Lemma minimum_reflux_rule_witness :
  exists d : design,
    calculate_design seed_solver
      (py 100) (py 0.5) (py 0.95) (py 0.05) (py 1.167) (py 1.25) = Ok d /\
    val (design_R_min d) ==
      (0.95 - val (design_y_intersect d))
      / (val (design_y_intersect d) - val (design_x_intersect d)) /\
    val (design_R d) == 1.25 * val (design_R_min d).
Proof.
  eexists.
  match goal with
  | |- ?c = Ok ?d /\ _ =>
      assert (Hd : c = Ok d) by (vm_compute; reflexivity)
  end.
  split; [exact Hd|].
  destruct (minimum_reflux_rule seed_solver _ _ _ _ _ _ _ Hd)
    as (_ & Hpos & _ & _ & HR).
  split; [|exact HR].
  apply Hpos. vm_compute. discriminate.
Defined.


End McCabeThieleProps.

(** ** Properties of [MyVLEPlayground.py] *)

Module VLEPlaygroundProps.

Import VLEPlayground VLEPlaygroundSpec.
Import McCabeThieleSpec.

Local Open Scope result_scope.

Section WithParameters.

Variable pow10 : num -> result num.
Variables tx_interp ty_interp : Q -> Q.
Variable hybrd : (num -> result num) -> Q -> Q.

Let phase_equilibrium_pxy := phase_equilibrium_pxy pow10 hybrd.
Let phase_equilibrium_txy := phase_equilibrium_txy tx_interp ty_interp.

(** The four values both branches decide on, as a function of the tests. *)
Lemma phase_equilibrium_pxy_inv (T P_point z : num) (r : pxy_dict) :
  phase_equilibrium_pxy T P_point z = Ok r ->
  px_function pow10 z T = Ok (pxy_P_bubble r) /\
  py_function pow10 z T = Ok (pxy_P_dew r) /\
  pxy_z r = z /\ pxy_P_point r = P_point /\
  ((val P_point < val (pxy_P_dew r) /\ pxy_phase r = vapor /\
    pxy_x_liquid r = z /\ pxy_y_vapor r = z /\ pxy_vapor_fraction r = py 1.0)
   \/
   (~ val P_point < val (pxy_P_dew r) /\ val (pxy_P_bubble r) < val P_point /\
    pxy_phase r = liquid /\
    pxy_x_liquid r = z /\ pxy_y_vapor r = z /\ pxy_vapor_fraction r = py 0.0)
   \/
   (~ val P_point < val (pxy_P_dew r) /\ ~ val (pxy_P_bubble r) < val P_point /\
    pxy_phase r = two_phase /\
    ((pxy_y_vapor r - z) / (pxy_y_vapor r - pxy_x_liquid r))%num
      = Ok (pxy_vapor_fraction r))).
Proof.
  unfold phase_equilibrium_pxy, VLEPlayground.phase_equilibrium_pxy.
  intro H. bind_inv H. rename a into P_bubble.
  bind_inv H. rename a into P_dew.
  bind_inv H. destruct a as [[[phase x_liquid] y_vapor] vapor_fraction].
  injection H as <-. cbn.
  split; [assumption|]. split; [assumption|].
  split; [reflexivity|]. split; [reflexivity|].
  rename Hstep1 into Hb.
  unfold nlt, ngt in Hb.
  destruct (Qlt_bool (val P_point) (val P_dew)) eqn:E1.
  - injection Hb as <- <- <- <-. left. apply Qlt_bool_iff in E1. auto.
  - apply Qlt_bool_false_iff in E1.
    destruct (Qlt_bool (val P_bubble) (val P_point)) eqn:E2.
    + injection Hb as <- <- <- <-. right. left.
      apply Qlt_bool_iff in E2. split; [lra|auto].
    + apply Qlt_bool_false_iff in E2. right. right.
      bind_inv Hb. bind_inv Hb. bind_inv Hb.
      injection Hb as <- <- <- <-.
      split; [lra|]. split; [lra|]. split; [reflexivity|]. assumption.
Qed.

Ltac txy_proj :=
  cbn [txy_phase txy_x_liquid txy_y_vapor txy_vapor_fraction
       txy_T_bubble txy_T_dew txy_T_point txy_P txy_z].

Lemma phase_equilibrium_txy_value (P T_point z : num) :
  let T_bubble := np (tx_interp (val z)) in
  let T_dew := if (z <? py 1)%num then np (ty_interp (val z))
               else np (tx_interp (val z)) in
  exists r,
    phase_equilibrium_txy P T_point z = Ok r /\
    txy_T_bubble r = T_bubble /\ txy_T_dew r = T_dew /\
    txy_z r = z /\ txy_T_point r = T_point /\
    ((val T_dew < val T_point /\ txy_phase r = vapor /\
      txy_x_liquid r = z /\ txy_y_vapor r = z /\ txy_vapor_fraction r = py 1.0)
     \/
     (~ val T_dew < val T_point /\ val T_point < val T_bubble /\
      txy_phase r = liquid /\
      txy_x_liquid r = z /\ txy_y_vapor r = z /\ txy_vapor_fraction r = py 0.0)
     \/
     (~ val T_dew < val T_point /\ ~ val T_point < val T_bubble /\
      txy_phase r = two_phase /\
      txy_x_liquid r = nearest_on_curve tx_interp T_point /\
      txy_y_vapor r = nearest_on_curve ty_interp T_point /\
      (~ val (txy_y_vapor r) == val (txy_x_liquid r) ->
       val (txy_vapor_fraction r) ==
       (val (txy_y_vapor r) - val z) / (val (txy_y_vapor r) - val (txy_x_liquid r))) /\
      (val (txy_y_vapor r) == val (txy_x_liquid r) ->
       txy_vapor_fraction r = py 0.5))).
Proof.
  intros T_bubble T_dew. subst T_bubble T_dew.
  unfold phase_equilibrium_txy, VLEPlayground.phase_equilibrium_txy.
  set (T_bubble := np (tx_interp (val z))).
  set (T_dew := if (z <? py 1)%num then _ else _).
  unfold ngt. unfold nlt at 1.
  destruct (Qlt_bool (val T_dew) (val T_point)) eqn:E1.
  - cbn [bind]. eexists. split; [reflexivity|]. txy_proj.
    apply Qlt_bool_iff in E1. repeat (split; [reflexivity|]). left. auto.
  - apply Qlt_bool_false_iff in E1.
    destruct (Qlt_bool (val T_point) (val T_bubble)) eqn:E2.
    + cbn [bind]. eexists. split; [reflexivity|]. txy_proj.
      apply Qlt_bool_iff in E2. repeat (split; [reflexivity|]).
      right. left. split; [lra|auto].
    + apply Qlt_bool_false_iff in E2.
      set (x_liquid := nearest_on_curve tx_interp T_point).
      set (y_vapor := nearest_on_curve ty_interp T_point).
      unfold nne.
      destruct (Qeq_bool (val y_vapor) (val x_liquid)) eqn:E3; cbn [negb].
      * cbn [bind]. eexists. split; [reflexivity|]. txy_proj.
        apply Qeq_bool_iff in E3. repeat (split; [reflexivity|]).
        right. right. split; [lra|]. split; [lra|].
        repeat (split; [reflexivity|]). split; [intro Hne; contradiction|auto].
      * apply Qeq_bool_false_iff in E3.
        rewrite ndiv_ok by (nsimpl; lra). cbn [bind].
        eexists. split; [reflexivity|]. txy_proj.
        repeat (split; [reflexivity|]).
        right. right. split; [lra|]. split; [lra|].
        repeat (split; [reflexivity|]).
        split; [|intro; contradiction]. intros _. nsimpl. reflexivity.
Qed.

(** For a mixture between the pure components, with positive vapor
    pressures, the dew pressure is not above the bubble pressure. *)
Lemma pxy_dew_le_bubble (T z p1 p2 P_bubble P_dew : num) :
  psat1 pow10 T = Ok p1 -> psat2 pow10 T = Ok p2 ->
  0 < val p1 -> 0 < val p2 -> 0 <= val z -> val z <= 1 ->
  px_function pow10 z T = Ok P_bubble ->
  py_function pow10 z T = Ok P_dew ->
  val P_dew <= val P_bubble.
Proof.
  intros H1 H2 Hp1 Hp2 Hz0 Hz1 Hb Hd.
  unfold px_function in Hb. rewrite H1, H2 in Hb. cbn [bind] in Hb.
  injection Hb as <-.
  unfold py_function in Hd. rewrite H1, H2 in Hd. cbn [bind] in Hd.
  bind_inv Hd. apply ndiv_inv in Hstep. destruct Hstep as [_ ->].
  bind_inv Hd. apply ndiv_inv in Hstep. destruct Hstep as [_ ->].
  apply ndiv_inv in Hd. destruct Hd as [Hnz ->]. nsimpl.
  set (zv := val z) in *. set (a := val p1) in *. set (b := val p2) in *.
  clearbody zv a b.
  assert (Hs : 0 < zv / a + (1 - zv) / b).
  { assert (Ha : 0 <= zv / a) by (apply Qle_shift_div_l; lra).
    assert (Hb' : 0 <= (1 - zv) / b) by (apply Qle_shift_div_l; lra).
    destruct (Qlt_le_dec 0 (zv / a + (1 - zv) / b)) as [Hlt|Hle]; [exact Hlt|].
    exfalso. apply Hnz. lra. }
  apply Qle_shift_div_r; [exact Hs|].
  assert (E : (zv * a + (1 - zv) * b) * (zv / a + (1 - zv) / b)
              == 1 + zv * (1 - zv) * ((a - b) * (a - b) / (a * b))).
  { field. split; lra. }
  rewrite E.
  assert (Hq : 0 <= (a - b) * (a - b) / (a * b)).
  { apply Qle_shift_div_l; [nra|].
    generalize (a - b). intro d. nra. }
  assert (Hw : 0 <= zv * (1 - zv)) by nra.
  revert Hq Hw. generalize ((a - b) * (a - b) / (a * b)) (zv * (1 - zv)).
  intros k w Hk Hw. nra.
Qed.

(** C10.  Both classifiers test with strict inequalities.  In P-x-y mode the
    tag is [vapor] exactly when [P_point < P_dew], and [liquid] only when
    [P_point > P_bubble]; in T-x-y mode it is [vapor] exactly when
    [T_point > T_dew] and [liquid] only when [T_point < T_bubble].  A point
    on the bubble or on the dew boundary is tagged [two_phase] whenever the
    two boundaries are in their physical order, [P_dew <= P_bubble] and
    [T_bubble <= T_dew]; in P-x-y mode they are, for every composition
    between the pure components and positive vapor pressures. *)
Theorem flash_boundaries_are_two_phase :
  (forall (T P_point z : num) (r : pxy_dict),
      phase_equilibrium_pxy T P_point z = Ok r ->
      (pxy_phase r = vapor <-> val P_point < val (pxy_P_dew r)) /\
      (pxy_phase r = liquid <->
       ~ val P_point < val (pxy_P_dew r) /\ val P_point > val (pxy_P_bubble r)) /\
      (val (pxy_P_dew r) <= val (pxy_P_bubble r) ->
       val P_point == val (pxy_P_dew r) \/ val P_point == val (pxy_P_bubble r) ->
       pxy_phase r = two_phase) /\
      (forall p1 p2 : num,
          psat1 pow10 T = Ok p1 -> psat2 pow10 T = Ok p2 ->
          0 < val p1 -> 0 < val p2 -> 0 <= val z -> val z <= 1 ->
          val (pxy_P_dew r) <= val (pxy_P_bubble r) /\
          (val P_point == val (pxy_P_dew r) \/
           val P_point == val (pxy_P_bubble r) ->
           pxy_phase r = two_phase))) /\
  (forall (P T_point z : num),
      exists r : txy_dict,
        phase_equilibrium_txy P T_point z = Ok r /\
        (txy_phase r = vapor <-> val T_point > val (txy_T_dew r)) /\
        (txy_phase r = liquid <->
         ~ val T_point > val (txy_T_dew r) /\ val T_point < val (txy_T_bubble r)) /\
        (val (txy_T_bubble r) <= val (txy_T_dew r) ->
         val T_point == val (txy_T_dew r) \/ val T_point == val (txy_T_bubble r) ->
         txy_phase r = two_phase)).
Proof.
  split.
  - intros T P_point z r H.
    assert (Hinv := H). apply phase_equilibrium_pxy_inv in Hinv.
    destruct Hinv as (Hb & Hd & _ & _ & Hcases).
    assert (Hbound : val (pxy_P_dew r) <= val (pxy_P_bubble r) ->
                     val P_point == val (pxy_P_dew r) \/
                     val P_point == val (pxy_P_bubble r) ->
                     pxy_phase r = two_phase).
    { destruct Hcases as [(Hv & Hp & _)|[(Hnv & Hl & Hp & _)|(Hnv & Hnl & Hp & _)]].
      - intros Hord [E|E]; lra.
      - intros Hord [E|E]; lra.
      - intros _ _. exact Hp. }
    split; [|split; [|split; [exact Hbound|]]].
    + destruct Hcases as [(Hv & Hp & _)|[(Hnv & Hl & Hp & _)|(Hnv & Hnl & Hp & _)]];
        rewrite Hp; [tauto|split; [discriminate|tauto]..].
    + destruct Hcases as [(Hv & Hp & _)|[(Hnv & Hl & Hp & _)|(Hnv & Hnl & Hp & _)]];
        rewrite Hp.
      * split; [discriminate|]. tauto.
      * tauto.
      * split; [discriminate|]. intros [_ Hgt]. exfalso. apply Hnl. exact Hgt.
    + intros p1 p2 H1 H2 Hp1 Hp2 Hz0 Hz1.
      pose proof (pxy_dew_le_bubble T z p1 p2 _ _ H1 H2 Hp1 Hp2 Hz0 Hz1 Hb Hd)
        as Hord.
      split; [exact Hord|exact (Hbound Hord)].
  - intros P T_point z.
    destruct (phase_equilibrium_txy_value P T_point z) as (r & Hr & Hb & Hd & _ & _ & Hcases).
    exists r. split; [exact Hr|]. rewrite Hb, Hd.
    destruct Hcases as [(Hv & Hp & _)|[(Hnv & Hl & Hp & _)|(Hnv & Hnl & Hp & _)]];
      rewrite Hp.
    + split; [tauto|]. split.
      * split; [discriminate|]. tauto.
      * intros Hord [E|E]; lra.
    + split; [split; [discriminate|tauto]|]. split; [tauto|].
      intros Hord [E|E]; lra.
    + split; [split; [discriminate|tauto]|].
      split; [split; [discriminate|]|reflexivity].
      intros [_ Hlt]. exfalso. apply Hnl. exact Hlt.
Qed.

(** *** The lever rule *)

(** In the two-phase region of P-x-y mode neither residual function raises,
    so both compositions are what the solver ends with, and the lever rule
    divides by their difference. *)
Lemma phase_equilibrium_pxy_two_phase (T P_point z P_bubble P_dew : num) :
  px_function pow10 z T = Ok P_bubble ->
  py_function pow10 z T = Ok P_dew ->
  ~ val P_point < val P_dew -> ~ val P_bubble < val P_point ->
  let x_liquid := np (hybrd (liquid_eq pow10 T P_point) (val z)) in
  let y_vapor := np (hybrd (vapor_eq pow10 T P_point) (val z)) in
  phase_equilibrium_pxy T P_point z =
  (vapor_fraction <- (y_vapor - z) / (y_vapor - x_liquid) ;;
   Ok {| pxy_phase := two_phase; pxy_x_liquid := x_liquid;
         pxy_y_vapor := y_vapor; pxy_vapor_fraction := vapor_fraction;
         pxy_P_bubble := P_bubble; pxy_P_dew := P_dew;
         pxy_T := T; pxy_P_point := P_point; pxy_z := z |})%num.
Proof.
  intros Hb Hd Hnv Hnl x_liquid y_vapor.
  unfold phase_equilibrium_pxy, VLEPlayground.phase_equilibrium_pxy.
  rewrite Hb, Hd. cbn [bind]. unfold nlt, ngt.
  assert (E1 : Qlt_bool (val P_point) (val P_dew) = false)
    by (apply Qlt_bool_false_iff; lra).
  assert (E2 : Qlt_bool (val P_bubble) (val P_point) = false)
    by (apply Qlt_bool_false_iff; lra).
  rewrite E1, E2.
  assert (Hl : fsolve hybrd (liquid_eq pow10 T P_point) z = Ok x_liquid).
  { apply fsolve_returns. intros h Hh.
    unfold liquid_eq, px_function in Hh. unfold px_function in Hb.
    destruct (psat1 pow10 T) as [p1|]; [|discriminate]. cbn [bind] in *.
    destruct (psat2 pow10 T) as [p2|]; discriminate. }
  assert (Hv : fsolve hybrd (vapor_eq pow10 T P_point) z = Ok y_vapor).
  { apply fsolve_returns. intros h Hh.
    unfold vapor_eq, py_function in Hh. unfold py_function in Hd.
    destruct (psat1 pow10 T) as [p1|]; [|discriminate]. cbn [bind] in *.
    bind_inv Hd. bind_inv Hd. clear Hstep Hd.
    revert Hh. unfold ndiv; cbn [kind np kjoin val].
    destruct (Qeq_bool (val p1) 0); [intro Hh; now injection Hh as <-|].
    cbn [bind]. rewrite Hstep0. cbn [bind].
    destruct (Qeq_bool _ 0); [intro Hh; now injection Hh as <-|].
    cbn [bind].
    destruct (Qeq_bool _ 0); [|discriminate].
    intro Hh; now injection Hh as <-. }
  rewrite Hl. cbn [bind]. rewrite Hv. cbn [bind].
  destruct ((y_vapor - z) / (y_vapor - x_liquid))%num; reflexivity.
Qed.

(** When the two solves end at the same composition the P-x-y branch
    divides by zero: there is no fallback value. *)
Lemma lever_rule_pxy_unguarded (T P_point z P_bubble P_dew : num) :
  px_function pow10 z T = Ok P_bubble ->
  py_function pow10 z T = Ok P_dew ->
  ~ val P_point < val P_dew -> ~ val P_bubble < val P_point ->
  hybrd (vapor_eq pow10 T P_point) (val z)
    == hybrd (liquid_eq pow10 T P_point) (val z) ->
  phase_equilibrium_pxy T P_point z = Stop NonFinite.
Proof.
  intros Hb Hd Hnv Hnl Heq.
  rewrite (phase_equilibrium_pxy_two_phase T P_point z P_bubble P_dew Hb Hd Hnv Hnl).
  unfold ndiv. nsimpl.
  assert (Hz : Qeq_bool (hybrd (vapor_eq pow10 T P_point) (val z)
                         - hybrd (liquid_eq pow10 T P_point) (val z)) 0 = true).
  { apply Qeq_bool_iff. lra. }
  now rewrite Hz.
Qed.

(** The lever rule in both modes.  In T-x-y mode the branch always returns,
    with [(y_vapor - z) / (y_vapor - x_liquid)] when the two compositions
    differ and 0.5 when they are equal.  In P-x-y mode a two-phase result
    has the same quotient, and the compositions of a result differ. *)
Lemma lever_rule_values :
  (forall (P T_point z : num),
      exists r : txy_dict,
        phase_equilibrium_txy P T_point z = Ok r /\
        (txy_phase r = two_phase ->
         (~ val (txy_y_vapor r) == val (txy_x_liquid r) ->
          val (txy_vapor_fraction r) ==
          (val (txy_y_vapor r) - val z)
          / (val (txy_y_vapor r) - val (txy_x_liquid r))) /\
         (val (txy_y_vapor r) == val (txy_x_liquid r) ->
          txy_vapor_fraction r = py 0.5))) /\
  (forall (T P_point z : num) (r : pxy_dict),
      phase_equilibrium_pxy T P_point z = Ok r ->
      pxy_phase r = two_phase ->
      ~ val (pxy_y_vapor r) == val (pxy_x_liquid r) /\
      val (pxy_vapor_fraction r) ==
      (val (pxy_y_vapor r) - val z)
      / (val (pxy_y_vapor r) - val (pxy_x_liquid r))).
Proof.
  split.
  - intros P T_point z.
    destruct (phase_equilibrium_txy_value P T_point z)
      as (r & Hr & _ & _ & _ & _ & Hcases).
    exists r. split; [exact Hr|]. intro Hp.
    destruct Hcases as [(_ & Hp' & _)|[(_ & _ & Hp' & _)|(_ & _ & _ & _ & _ & H)]];
      [congruence|congruence|exact H].
  - intros T P_point z r H Hp. apply phase_equilibrium_pxy_inv in H.
    destruct H as (_ & _ & _ & _ & Hcases).
    destruct Hcases as [(_ & Hp' & _)|[(_ & _ & Hp' & _)|(_ & _ & _ & Hdiv)]];
      [congruence|congruence|].
    apply ndiv_inv in Hdiv. destruct Hdiv as [Hnz Hvf].
    rewrite Hvf. nsimpl. split; [|reflexivity].
    intro E. apply Hnz. lra.
Qed.

(** *** Where the P-x-y branch divides safely *)

(** The bubble pressure is the mole-fraction average of the two vapor
    pressures. *)
Lemma px_function_value (x T p1 p2 : num) :
  psat1 pow10 T = Ok p1 -> psat2 pow10 T = Ok p2 ->
  exists P, px_function pow10 x T = Ok P /\
            val P == val x * val p1 + (1 - val x) * val p2.
Proof.
  intros H1 H2. unfold px_function. rewrite H1, H2. cbn [bind].
  eexists. split; [reflexivity|]. nsimpl. reflexivity.
Qed.

(** A returned dew pressure is the harmonic average. *)
Lemma py_function_inv (x T p1 p2 P : num) :
  psat1 pow10 T = Ok p1 -> psat2 pow10 T = Ok p2 ->
  py_function pow10 x T = Ok P ->
  ~ val p1 == 0 /\ ~ val p2 == 0 /\
  val P * (val x / val p1 + (1 - val x) / val p2) == 1.
Proof.
  intros H1 H2 H. unfold py_function in H. rewrite H1, H2 in H.
  cbn [bind] in H.
  bind_inv H. apply ndiv_inv in Hstep. destruct Hstep as [Hn1 ->].
  bind_inv H. apply ndiv_inv in Hstep. destruct Hstep as [Hn2 ->].
  apply ndiv_inv in H. destruct H as [Hnz ->]. nsimpl.
  split; [exact Hn1|]. split; [exact Hn2|].
  revert Hnz. generalize (val x / val p1 + (1 - val x) / val p2).
  intros s Hs. field. exact Hs.
Qed.

(** A pressure between the dew and the bubble pressure of a mixture lies
    strictly between the two vapor pressures. *)
Lemma pressure_between_vapor_pressures (u v zv Pb Pd P : Q) :
  0 < u -> 0 < v -> ~ u == v -> 0 < zv -> zv < 1 ->
  Pb == zv * u + (1 - zv) * v ->
  Pd * (zv * v + (1 - zv) * u) == u * v ->
  Pd <= P -> P <= Pb ->
  (P - u) * (P - v) < 0.
Proof.
  intros Hu Hv Hne Hz0 Hz1 Eb Ed Hd Hb.
  assert (Hm : 0 < zv * v + (1 - zv) * u).
  { assert (0 < zv * v) by (apply Qmult_lt_0_compat; lra).
    assert (0 < (1 - zv) * u) by (apply Qmult_lt_0_compat; lra).
    lra. }
  assert (Edv : (Pd - v) * (zv * v + (1 - zv) * u) == v * (zv * (u - v))).
  { setoid_replace ((Pd - v) * (zv * v + (1 - zv) * u))
      with (Pd * (zv * v + (1 - zv) * u) - v * (zv * v + (1 - zv) * u))
      by ring.
    rewrite Ed. ring. }
  assert (Edu : (Pd - u) * (zv * v + (1 - zv) * u) == u * ((1 - zv) * (v - u))).
  { setoid_replace ((Pd - u) * (zv * v + (1 - zv) * u))
      with (Pd * (zv * v + (1 - zv) * u) - u * (zv * v + (1 - zv) * u))
      by ring.
    rewrite Ed. ring. }
  destruct (Qlt_le_dec v u) as [Hvu|Huv].
  - (* v < P < u *)
    assert (Hbu : Pb < u).
    { rewrite Eb.
      assert (0 < (1 - zv) * (u - v)) by (apply Qmult_lt_0_compat; lra).
      lra. }
    assert (Hdv : v < Pd).
    { assert (H : 0 < (Pd - v) * (zv * v + (1 - zv) * u)).
      { rewrite Edv. apply Qmult_lt_0_compat; [lra|].
        apply Qmult_lt_0_compat; lra. }
      revert Hm H. generalize (zv * v + (1 - zv) * u). intros m Hm H.
      clear - Hm H. nra. }
    assert (H1 : 0 < (u - P) * (P - v)) by (apply Qmult_lt_0_compat; lra).
    lra.
  - assert (Huv' : u < v).
    { destruct (Qlt_le_dec u v) as [Hlt|Hge]; [exact Hlt|].
      exfalso. apply Hne. lra. }
    assert (Hbv : Pb < v).
    { rewrite Eb.
      assert (0 < zv * (v - u)) by (apply Qmult_lt_0_compat; lra).
      lra. }
    assert (Hdu : u < Pd).
    { assert (H : 0 < (Pd - u) * (zv * v + (1 - zv) * u)).
      { rewrite Edu. apply Qmult_lt_0_compat; [lra|].
        apply Qmult_lt_0_compat; lra. }
      revert Hm H. generalize (zv * v + (1 - zv) * u). intros m Hm H.
      clear - Hm H. nra. }
    assert (H1 : 0 < (P - u) * (v - P)) by (apply Qmult_lt_0_compat; lra).
    lra.
Qed.

(** For a mixture of two components of different vapor pressure, a liquid
    and a vapor composition that are zeros of the two residual functions of
    the two-phase branch differ. *)
Lemma pxy_roots_differ (T P_point z p1 p2 P_bubble P_dew x y : num) :
  psat1 pow10 T = Ok p1 -> psat2 pow10 T = Ok p2 ->
  0 < val p1 -> 0 < val p2 -> ~ val p1 == val p2 ->
  0 < val z -> val z < 1 ->
  px_function pow10 z T = Ok P_bubble ->
  py_function pow10 z T = Ok P_dew ->
  ~ val P_point < val P_dew -> ~ val P_bubble < val P_point ->
  root_of (liquid_eq pow10 T P_point) x ->
  root_of (vapor_eq pow10 T P_point) y ->
  ~ val y == val x.
Proof.
  intros H1 H2 Hp1 Hp2 Hne Hz0 Hz1 Hb Hd Hnv Hnl
         (rl & Hrl & Zl) (rv & Hrv & Zv) Hyx.
  destruct (px_function_value z T p1 p2 H1 H2) as (Pb & Hb' & Eb).
  rewrite Hb in Hb'. injection Hb' as <-.
  destruct (py_function_inv _ _ _ _ _ H1 H2 Hd) as (_ & _ & Ed0).
  unfold liquid_eq in Hrl. bind_inv Hrl. rename a into Pl.
  injection Hrl as <-.
  destruct (px_function_value x T p1 p2 H1 H2) as (P1 & HP1 & EP1).
  rewrite Hstep in HP1. injection HP1 as <-.
  unfold vapor_eq in Hrv. bind_inv Hrv. rename a into Pv.
  injection Hrv as <-.
  apply (py_function_inv _ _ _ _ _ H1 H2) in Hstep0.
  destruct Hstep0 as (_ & _ & EP2). nsimpl.
  set (xv := val x) in *. set (yv := val y) in *.
  set (P := val P_point) in *. set (zv := val z) in *.
  set (u := val p1) in *. set (v := val p2) in *.
  assert (Ed : val P_dew * (zv * v + (1 - zv) * u) == u * v).
  { assert (E : val P_dew * (zv / u + (1 - zv) / v) * (u * v)
                == val P_dew * (zv * v + (1 - zv) * u)) by (field; split; lra).
    rewrite <- E, Ed0. ring. }
  assert (EPv : P * (yv * v + (1 - yv) * u) == u * v).
  { assert (Ea : val Pv == P) by lra.
    rewrite <- Ea.
    assert (E : val Pv * (yv / u + (1 - yv) / v) * (u * v)
                == val Pv * (yv * v + (1 - yv) * u)) by (field; split; lra).
    rewrite <- E, EP2. ring. }
  assert (EPl : xv * (u - v) == P - v) by lra.
  assert (Hprod : (P - u) * (P - v) == 0).
  { rewrite Hyx in EPv.
    setoid_replace ((P - u) * (P - v))
      with (u * v - P * (u - (P - v))) by ring.
    rewrite <- EPl, <- EPv. ring. }
  pose proof (pressure_between_vapor_pressures u v zv (val P_bubble)
                (val P_dew) P Hp1 Hp2 Hne Hz0 Hz1 Eb Ed
                ltac:(lra) ltac:(lra)) as Hlt.
  lra.
Qed.

(** C5.  The lever-rule division is guarded in T-x-y mode only.  There the
    branch always returns, with [(y_vapor - z) / (y_vapor - x_liquid)] when
    the two compositions differ and the fallback 0.5 when they are equal.
    The P-x-y branch computes the same quotient without a test: a
    two-phase result has it, with compositions that differ; when the two
    solves end at the same composition the branch divides by zero and
    gives no result.  For a mixture ([0 < z < 1]) of components with
    different, positive vapor pressures that does not happen when both
    solves end on zeros of their residual functions: the zeros differ and
    the two-phase result is returned. *)
Theorem lever_rule_guarded_in_txy_only :
  (forall (P T_point z : num),
      exists r : txy_dict,
        phase_equilibrium_txy P T_point z = Ok r /\
        (txy_phase r = two_phase ->
         (~ val (txy_y_vapor r) == val (txy_x_liquid r) ->
          val (txy_vapor_fraction r) ==
          (val (txy_y_vapor r) - val z)
          / (val (txy_y_vapor r) - val (txy_x_liquid r))) /\
         (val (txy_y_vapor r) == val (txy_x_liquid r) ->
          txy_vapor_fraction r = py 0.5))) /\
  (forall (T P_point z : num) (r : pxy_dict),
      phase_equilibrium_pxy T P_point z = Ok r ->
      pxy_phase r = two_phase ->
      ~ val (pxy_y_vapor r) == val (pxy_x_liquid r) /\
      val (pxy_vapor_fraction r) ==
      (val (pxy_y_vapor r) - val z)
      / (val (pxy_y_vapor r) - val (pxy_x_liquid r))) /\
  (forall (T P_point z P_bubble P_dew : num),
      px_function pow10 z T = Ok P_bubble ->
      py_function pow10 z T = Ok P_dew ->
      ~ val P_point < val P_dew -> ~ val P_bubble < val P_point ->
      hybrd (vapor_eq pow10 T P_point) (val z)
        == hybrd (liquid_eq pow10 T P_point) (val z) ->
      phase_equilibrium_pxy T P_point z = Stop NonFinite) /\
  (forall (T P_point z p1 p2 P_bubble P_dew : num),
      psat1 pow10 T = Ok p1 -> psat2 pow10 T = Ok p2 ->
      0 < val p1 -> 0 < val p2 -> ~ val p1 == val p2 ->
      0 < val z -> val z < 1 ->
      px_function pow10 z T = Ok P_bubble ->
      py_function pow10 z T = Ok P_dew ->
      ~ val P_point < val P_dew -> ~ val P_bubble < val P_point ->
      root_of (liquid_eq pow10 T P_point)
              (np (hybrd (liquid_eq pow10 T P_point) (val z))) ->
      root_of (vapor_eq pow10 T P_point)
              (np (hybrd (vapor_eq pow10 T P_point) (val z))) ->
      exists r : pxy_dict,
        phase_equilibrium_pxy T P_point z = Ok r /\
        pxy_phase r = two_phase /\
        ~ val (pxy_y_vapor r) == val (pxy_x_liquid r) /\
        val (pxy_vapor_fraction r) ==
        (val (pxy_y_vapor r) - val z)
        / (val (pxy_y_vapor r) - val (pxy_x_liquid r))).
Proof.
  split; [exact (proj1 lever_rule_values)|].
  split; [exact (proj2 lever_rule_values)|].
  split; [exact lever_rule_pxy_unguarded|].
  intros T P_point z p1 p2 P_bubble P_dew H1 H2 Hp1 Hp2 Hne Hz0 Hz1
         Hb Hd Hnv Hnl Hrl Hrv.
  pose proof (pxy_roots_differ T P_point z p1 p2 P_bubble P_dew _ _
                H1 H2 Hp1 Hp2 Hne Hz0 Hz1 Hb Hd Hnv Hnl Hrl Hrv) as Hyx.
  cbn [val np] in Hyx.
  rewrite (phase_equilibrium_pxy_two_phase T P_point z P_bubble P_dew
             Hb Hd Hnv Hnl).
  cbv zeta.
  rewrite ndiv_ok by (nsimpl; intro E; apply Hyx; lra).
  cbn [bind]. eexists. split; [reflexivity|].
  cbn [pxy_phase pxy_y_vapor pxy_x_liquid pxy_vapor_fraction].
  split; [reflexivity|]. nsimpl. split; [exact Hyx|reflexivity].
Qed.

End WithParameters.

(** *** The statements on concrete inputs *)

(** Pure n-hexane at its own vapor pressure is classified two-phase in
    P-x-y mode (the point is on both boundaries, neither test fires), both
    solves end at [x = 1], and the branch divides 0 by 0: no fallback value
    is returned.  The same coincidence in T-x-y mode (pure n-heptane at
    its boiling point) takes the guarded branch and yields 0.5. *)
Lemma lever_rule_pxy_divides_by_zero :
  (exists p1 : num,
      psat1 pow10_chord (py 115) = Ok p1 /\
      px_function pow10_chord (py 1) (py 115) = Ok p1 /\
      py_function pow10_chord (py 1) (py 115) = Ok p1 /\
      newton_solver (liquid_eq pow10_chord (py 115) p1) 1 == 1 /\
      newton_solver (vapor_eq pow10_chord (py 115) p1) 1 == 1 /\
      phase_equilibrium_pxy pow10_chord newton_solver (py 115) p1 (py 1)
      = Stop NonFinite) /\
  (exists r : txy_dict,
      phase_equilibrium_txy tx_line ty_line (py 1) (py 98.42) (py 0) = Ok r /\
      txy_phase r = two_phase /\
      val (txy_y_vapor r) == val (txy_x_liquid r) /\
      txy_vapor_fraction r = py 0.5).
Proof.
  split.
  - eexists. split; [vm_compute; reflexivity|].
    split; [vm_compute; reflexivity|]. split; [vm_compute; reflexivity|].
    split; [vm_compute; reflexivity|]. split; [vm_compute; reflexivity|].
    vm_compute. reflexivity.
  - eexists. split; [vm_compute; reflexivity|].
    split; [reflexivity|]. split; reflexivity.
Qed.

(** The default inputs of P-x-y mode: both solves end on zeros of their
    residual functions and the quotient is returned. *)
Lemma lever_rule_guarded_in_txy_only_witness :
  exists r : pxy_dict,
    phase_equilibrium_pxy pow10_chord rational_solver
      (py 115) (py 1.5) (py 0.45) = Ok r /\
    pxy_phase r = two_phase /\
    ~ val (pxy_y_vapor r) == val (pxy_x_liquid r) /\
    val (pxy_vapor_fraction r) ==
    (val (pxy_y_vapor r) - 0.45) / (val (pxy_y_vapor r) - val (pxy_x_liquid r)).
Proof.
  destruct (proj2 (proj2 (proj2
              (lever_rule_guarded_in_txy_only pow10_chord tx_line ty_line
                 rational_solver)))
              (py 115) (py 1.5) (py 0.45))
    with (p1 := {| kind := PyFloat; val := 2099315449 # 353350000 |})
         (p2 := {| kind := PyFloat; val := 286683047701 # 324367000000 |})
         (P_bubble := {| kind := PyFloat;
                         val := 144856637843373577 # 45846031780000000 |})
         (P_dew := {| kind := PyFloat;
                      val := 601838151005113232749 # 420106514542497407500 |})
    as (r & Hr & Hp & Hne & Hvf).
  - vm_compute. reflexivity.
  - vm_compute. reflexivity.
  - vm_compute. reflexivity.
  - vm_compute. reflexivity.
  - intro E. vm_compute in E. discriminate.
  - cbn [val py]. lra.
  - cbn [val py]. lra.
  - vm_compute. reflexivity.
  - vm_compute. reflexivity.
  - intro E. vm_compute in E. discriminate.
  - intro E. vm_compute in E. discriminate.
  - eexists. split; [vm_compute; reflexivity|reflexivity].
  - eexists. split; [vm_compute; reflexivity|reflexivity].
  - exists r. auto.
Defined.

Lemma flash_boundaries_are_two_phase_witness :
  (exists (P_bubble : num) (r : pxy_dict),
      px_function pow10_chord (py 0.45) (py 115) = Ok P_bubble /\
      phase_equilibrium_pxy pow10_chord newton_solver (py 115) P_bubble (py 0.45)
      = Ok r /\
      val (pxy_P_dew r) <= val (pxy_P_bubble r) /\
      val P_bubble == val (pxy_P_bubble r) /\
      pxy_phase r = two_phase) /\
  (exists r : txy_dict,
      phase_equilibrium_txy tx_line ty_line (py 1) (np (ty_line 0.45)) (py 0.45)
      = Ok r /\
      val (txy_T_bubble r) <= val (txy_T_dew r) /\
      ty_line 0.45 == val (txy_T_dew r) /\
      txy_phase r = two_phase).
Proof.
  split.
  - do 2 eexists. split; [vm_compute; reflexivity|].
    match goal with
    | |- ?c = Ok ?r /\ _ =>
        assert (Hr : c = Ok r) by (vm_compute; reflexivity)
    end.
    split; [exact Hr|].
    match goal with
    | |- _ /\ ?a == ?b /\ _ =>
        assert (Heq : a == b) by (vm_compute; reflexivity)
    end.
    destruct (proj1 (flash_boundaries_are_two_phase pow10_chord tx_line ty_line
                       newton_solver) _ _ _ _ Hr) as (_ & _ & _ & Hb).
    destruct (Hb _ _ ltac:(vm_compute; reflexivity) ltac:(vm_compute; reflexivity)
                ltac:(vm_compute; reflexivity) ltac:(vm_compute; reflexivity)
                ltac:(cbn [val py]; lra) ltac:(cbn [val py]; lra))
      as [Hord Htwo].
    split; [exact Hord|]. split; [exact Heq|].
    apply Htwo. right. exact Heq.
  - destruct (proj2 (flash_boundaries_are_two_phase pow10_chord tx_line ty_line
                       newton_solver) (py 1) (np (ty_line 0.45)) (py 0.45))
      as (r & Hr & _ & _ & Hb).
    exists r. split; [exact Hr|].
    assert (Hr' := Hr). vm_compute in Hr'. injection Hr' as Er.
    assert (Hord : val (txy_T_bubble r) <= val (txy_T_dew r))
      by (rewrite <- Er; vm_compute; discriminate).
    assert (Heq : ty_line 0.45 == val (txy_T_dew r))
      by (rewrite <- Er; vm_compute; reflexivity).
    split; [exact Hord|]. split; [exact Heq|].
    apply Hb; [exact Hord|left; exact Heq].
Defined.

(** Where the dew table lies below the bubble table, as the first segment
    of the program's tables does at [z = 0.01] (104.53 against 124.11
    degrees), a point on the bubble boundary is tagged [vapor] and a point
    on the dew boundary [liquid]: neither is [two_phase]. *)
Lemma boundary_points_are_single_phase :
  (exists r : txy_dict,
      phase_equilibrium_txy tx_first ty_first (py 1) (py 124.11) (py 0.01)
      = Ok r /\
      124.11 == val (txy_T_bubble r) /\
      txy_phase r = vapor /\ txy_phase r <> two_phase) /\
  (exists r : txy_dict,
      phase_equilibrium_txy tx_first ty_first (py 1) (py (ty_first 0.01))
        (py 0.01) = Ok r /\
      ty_first 0.01 == val (txy_T_dew r) /\
      txy_phase r = liquid /\ txy_phase r <> two_phase).
Proof.
  split.
  - eexists. split; [vm_compute; reflexivity|].
    split; [vm_compute; reflexivity|]. split; [reflexivity|discriminate].
  - eexists. split; [vm_compute; reflexivity|].
    split; [vm_compute; reflexivity|]. split; [reflexivity|discriminate].
Qed.

End VLEPlaygroundProps.

(** * Part V: further properties *)

(** ** The equilibrium relation *)

Module EquilibriumProps.

Import McCabeThiele McCabeThieleSpec McCabeThieleProps.






End EquilibriumProps.

(** ** The structure of the stage list *)

Module StagesProps.

Import McCabeThiele McCabeThieleSpec McCabeThieleProps StagesSpec.

Section TwoInvariants.

Variable x_b : num.
Variable test : loop_state -> bool.
Variable body : loop_state -> result loop_state.

(** [I] holds at the head of the loop, [J] after the body; [J] gives [I]
    back when the [break] is not taken. *)
Variables I J : loop_state -> Prop.

Hypothesis body_J :
  forall s s', I s -> test s = true -> (stage_num s < 50)%Z ->
               body s = Ok s' -> J s'.
Hypothesis J_I :
  forall s, J s -> val x_b * 1.01 < val (x_current s) -> I s.


End TwoInvariants.

Section Run.

Variables x_d x_b x_feed_intersect y_feed_intersect : num.
Variables slope_rect intercept_rect slope_strip intercept_strip : num.

Let x_fi := val x_feed_intersect.
Let T := val x_b * 1.01.
Let rect_body := rect_body x_feed_intersect
                   slope_rect intercept_rect slope_strip intercept_strip.
Let strip_body := strip_body slope_strip intercept_strip.
Let run_stages := run_stages x_b x_feed_intersect
                    slope_rect intercept_rect slope_strip intercept_strip.
Let calculate_stages := calculate_stages x_d x_b x_feed_intersect y_feed_intersect
                          slope_rect intercept_rect slope_strip intercept_strip.

Let s0 : loop_state :=
  {| x_current := x_d; y_current := x_d; stage_num := 0;
     stages_rect := 0; stages_strip := 0; feed_stage := None;
     stages_data := [] |}.




(** *** The two blocks *)





(** *** The bottoms tolerance *)






(** *** What the returned list looks like *)










End Run.

Section Descent.

Variables x_d x_b x_feed_intersect y_feed_intersect : num.
Variables slope_rect intercept_rect slope_strip intercept_strip : num.

Let x_fi := val x_feed_intersect.
Let a := val slope_rect.
Let b := val intercept_rect.
Let s := val slope_strip.
Let c := val intercept_strip.
Let T := val x_b * 1.01.

Hypothesis Hok : config_ok (val x_d) (val x_b) x_fi a b s c.









End Descent.

(** *** The statements on concrete inputs *)






End StagesProps.

(** ** The lines and flows of a design *)

Module DesignProps.

Import McCabeThiele McCabeThieleSpec McCabeThieleProps.

Section WithSolver.

Variable hybrd : (num -> result num) -> Q -> Q.






End WithSolver.

(** *** The statements on concrete inputs *)




End DesignProps.

(** ** Grids, comprehensions and rounding *)








(** [rint] fixes the integers, so rounding twice is rounding once. *)
Lemma rint_integer (z : Z) : rint (inject_Z z) = z.
Proof.
  unfold rint. rewrite Qfloor_Z.
  assert (E : Qlt_bool (inject_Z z - inject_Z z) (1 # 2) = true).
  { apply Qlt_bool_iff. lra. }
  now rewrite E.
Qed.

(** ** What the McCabe-Thiele app draws and prints *)

Module ViewsProps.

Import McCabeThiele McCabeThieleSpec McCabeThieleProps.
Import McCabeThieleViews ViewsSpec DesignProps.

(** *** The diagram *)









(** *** The staircase *)





Section WithSolver.

Variable hybrd : (num -> result num) -> Q -> Q.


(** *** The material balance text *)




(** *** The stage table *)


End WithSolver.

(** *** The feed condition *)

(** *** The statements on concrete inputs *)





(** The feed condition printed by [design_results] splits the
    values of [q] into five classes: subcooled liquid for [q > 1],
    saturated liquid at [q = 1], partially vaporized for [0 < q < 1],
    saturated vapor at [q = 0] and superheated vapor for [q < 0]; the number
    of actual trays printed is the number of theoretical stages. *)
Lemma feed_condition_classes (d : design) :
  let t := design_results d in
  let q := val (design_q d) in
  (text_feed_condition t = Subcooled_liquid <-> 1 < q) /\
  (text_feed_condition t = Saturated_liquid <-> q == 1) /\
  (text_feed_condition t = Partially_vaporized <-> 0 < q /\ q < 1) /\
  (text_feed_condition t = Saturated_vapor <-> q == 0) /\
  (text_feed_condition t = Superheated_vapor <-> q < 0) /\
  text_actual_trays t = text_total_stages t.
Proof.
  cbv zeta. unfold design_results.
  cbn [text_feed_condition text_actual_trays text_total_stages].
  unfold feed_thermal_condition, ngt, neq. cbn [val py].
  destruct (Qlt_bool 1 (val (design_q d))) eqn:E1.
  { apply Qlt_bool_iff in E1.
    repeat split; intros; try reflexivity; try discriminate; try lra. }
  apply Qlt_bool_false_iff in E1.
  destruct (Qeq_bool (val (design_q d)) 1) eqn:E2.
  { apply Qeq_bool_iff in E2.
    repeat split; intros; try reflexivity; try discriminate; try lra. }
  apply Qeq_bool_false_iff in E2.
  destruct (Qlt_bool 0 (val (design_q d))) eqn:E3.
  { apply Qlt_bool_iff in E3.
    repeat split; intros; try reflexivity; try discriminate; try lra. }
  apply Qlt_bool_false_iff in E3.
  destruct (Qeq_bool (val (design_q d)) 0) eqn:E4.
  { apply Qeq_bool_iff in E4.
    repeat split; intros; try reflexivity; try discriminate; try lra. }
  apply Qeq_bool_false_iff in E4.
  repeat split; intros; try reflexivity; try discriminate; try lra.
Qed.

End ViewsProps.

(** ** Further properties of the flash calculation *)

Module FlashProps.

Import VLEPlayground VLEPlaygroundSpec VLEPlaygroundProps.
Import VLEPlaygroundViews FlashSpec.
Import McCabeThieleSpec.

Section WithParameters.

Variable pow10 : num -> result num.
Variables tx_interp ty_interp : Q -> Q.
Variable hybrd : (num -> result num) -> Q -> Q.

Let phase_equilibrium_pxy := phase_equilibrium_pxy pow10 hybrd.
Let phase_equilibrium_txy := phase_equilibrium_txy tx_interp ty_interp.

(** *** Bubble and dew pressure *)





(** *** The lever rule between exact compositions *)


(** *** The grid search of T-x-y mode *)






End WithParameters.

(** *** The equilibrium table *)

Section EquilibriumTable.

Variable pow10 : num -> result num.
Variable hybrd : (num -> result num) -> Q -> Q.

(** numpy's power raises nothing: out of range it gives [inf]. *)
Hypothesis numpy_pow :
  forall (e : num) (h : halt),
    kind e = NpFloat -> pow10 e = Stop h -> is_exception h = false.













End EquilibriumTable.

(** *** The diagram and the bar chart *)

Section Charts.

Variable pow10 : num -> result num.
Variables x_eq t_bubble_eq t_dew_eq y_eq : list num.




End Charts.

(** *** The statements on concrete inputs *)







End FlashProps.
